(** * SPE Monitor: snapshot acquisition, diffing and scope filtering

    A shallow embedding of [monitor.js] and the properties its
    specification states about it.

    Modelling conventions.
    - JavaScript values are the scalars the tabular API and the JSON files
      carry: [undefined], [null], booleans, numbers and strings.  Numbers
      are integers ([Z]), as the dataset's identifiers and meal counts are;
      [String(n)] is then the decimal rendering.
    - A record (one row of the dataset) is an object used through property
      lookup only: a [gmap string value].  An absent property reads as
      [undefined].  Only own properties are modelled: no identifier of the
      dataset names a member of [Object.prototype].
    - A snapshot (the [previous-state.json] object, [indexed],
      [currentIndexed]) is an object used as a map from property key to
      record: a [gmap string record].  The engine's enumeration order of
      [Object.keys] is not modelled; [map_to_list] stands for it.
    - [new Date().toISOString()] is passed in as the argument [now].
    - The remote API is an oracle answering the n-th HTTP request.
    - Time and the console are a trace of events: requests, timers, the
      warning and error lines, the two file writes. *)

From stdpp Require Import base option list gmap strings pretty.

Open Scope string_scope.
Open Scope list_scope.
Open Scope nat_scope.

(** ** JavaScript values *)

Inductive value :=
  | VUndefined
  | VNull
  | VBool (b : bool)
  | VNum (n : Z)
  | VStr (s : string).

Global Instance value_eq_dec : EqDecision value.
Proof. solve_decision. Defined.

(** [ToBoolean]: what [if (v)], [!v] and [v && ...] test. *)
Definition truthy (v : value) : bool :=
  match v with
  | VUndefined | VNull => false
  | VBool b => b
  | VNum n => negb (Z.eqb n 0)
  | VStr s => negb (String.eqb s "")
  end.

(** [String(v)], also the conversion of a value used as a property key. *)
Definition ToString (v : value) : string :=
  match v with
  | VUndefined => "undefined"
  | VNull => "null"
  | VBool true => "true"
  | VBool false => "false"
  | VNum n => pretty n
  | VStr s => s
  end.

(** [arr.includes(v)]: membership up to SameValueZero, which on these
    scalars is equality. *)
Definition includes (arr : list value) (v : value) : bool :=
  bool_decide (v ∈ arr).

(** ** Records and snapshots *)

Abbreviation record := (gmap string value).
Abbreviation snapshot := (gmap string record).

(** [item[field]] *)
Definition get (item : record) (field : string) : value :=
  default VUndefined (item !! field).

(** [Object.values(obj)], the snapshot rendered as a record sequence. *)
Definition values (s : snapshot) : list record := (map_to_list s).*2.

(** ** Configuration *)

Definition MAX_PAGES : nat := 1500.

Definition MONITORED_FIELDS : list string :=
  [ "name"; "siret"; "city"; "department_lib"; "region_lib";
    "line_ministry"; "sector_list"; "daily_meal_count"; "yearly_meal_count";
    "production_type"; "management_type"; "economic_model";
    "active_on_ma_cantine"; "has_active_manager" ].

Definition FIELD_LABELS : gmap string string :=
  list_to_map
  [ ("name", "Nom"); ("siret", "SIRET"); ("city", "Ville");
    ("department_lib", "Département"); ("region_lib", "Région");
    ("line_ministry", "Ministère de tutelle"); ("sector_list", "Secteur");
    ("daily_meal_count", "Couverts/jour");
    ("yearly_meal_count", "Couverts/an");
    ("production_type", "Type de production");
    ("management_type", "Type de gestion");
    ("economic_model", "Modèle économique");
    ("active_on_ma_cantine", "Actif sur ma-cantine");
    ("has_active_manager", "Gestionnaire actif") ].

(** ** saveCurrentState: the index it builds

    [data.forEach(item => { if (item.id) indexed[item.id] = item })] *)

Definition index_step (indexed : snapshot) (item : record) : snapshot :=
  if truthy (get item "id")
  then <[ToString (get item "id") := item]> indexed
  else indexed.

Definition index_by_id (data : list record) : snapshot :=
  foldl index_step ∅ data.

(** ** detectChanges *)

Record modification := {
  champ : string;
  label : string;
  ancienne_valeur : value;
  nouvelle_valeur : value
}.

(** One entry of [nouveaux], [modifies] or [supprimes].  The last two
    properties exist on entries of [modifies] only. *)
Record entry := {
  id : value;
  etablissement : record;
  ministere : value;
  region : value;
  ancienMinistere : option value;
  modifications : option (list modification)
}.

Record changes := {
  nouveaux : list entry;
  modifies : list entry;
  supprimes : list entry;
  timestamp : string
}.

(** [v === null || v === undefined ? '' : String(v)] *)
Definition normalize (v : value) : string :=
  match v with
  | VUndefined | VNull => ""
  | _ => ToString v
  end.

(** [FIELD_LABELS[field] || field] *)
Definition label_of (field : string) : string :=
  match FIELD_LABELS !! field with
  | Some l => if String.eqb l "" then field else l
  | None => field
  end.

(** The body of [MONITORED_FIELDS.forEach(field => ...)]. *)
Definition compare_field (previous item : record)
    (mods : list modification) (field : string) : list modification :=
  let oldValue := get previous field in
  let newValue := get item field in
  let oldNorm := normalize oldValue in
  let newNorm := normalize newValue in
  if bool_decide (oldNorm ≠ newNorm)
  then mods ++ [ {| champ := field; label := label_of field;
                    ancienne_valeur := oldValue;
                    nouvelle_valeur := newValue |} ]
  else mods.

Definition field_modifications (previous item : record) : list modification :=
  foldl (compare_field previous item) [] MONITORED_FIELDS.

(** The mutable locals of the first loop. *)
Record scan := {
  sc_nouveaux : list entry;
  sc_modifies : list entry;
  currentIndexed : snapshot
}.

Definition new_entry (item : record) : entry :=
  {| id := get item "id"; etablissement := item;
     ministere := get item "line_ministry"; region := get item "region_lib";
     ancienMinistere := None; modifications := None |}.

Definition modified_entry (previous item : record)
    (mods : list modification) : entry :=
  {| id := get item "id"; etablissement := item;
     ministere := get item "line_ministry"; region := get item "region_lib";
     ancienMinistere := Some (get previous "line_ministry");
     modifications := Some mods |}.

(** The body of [currentData.forEach(item => ...)]. *)
Definition scan_step (previousState : snapshot) (st : scan)
    (item : record) : scan :=
  if negb (truthy (get item "id")) then st
  else
    let indexed := <[ToString (get item "id") := item]> (currentIndexed st) in
    match previousState !! ToString (get item "id") with
    | None =>
        {| sc_nouveaux := sc_nouveaux st ++ [new_entry item];
           sc_modifies := sc_modifies st;
           currentIndexed := indexed |}
    | Some previous =>
        let mods := field_modifications previous item in
        if bool_decide (0 < length mods)%nat
        then {| sc_nouveaux := sc_nouveaux st;
                sc_modifies := sc_modifies st ++ [modified_entry previous item mods];
                currentIndexed := indexed |}
        else {| sc_nouveaux := sc_nouveaux st;
                sc_modifies := sc_modifies st;
                currentIndexed := indexed |}
    end.

Definition scan_init : scan :=
  {| sc_nouveaux := []; sc_modifies := []; currentIndexed := ∅ |}.

Definition removed_entry (kv : string * record) : entry :=
  {| id := VStr kv.1; etablissement := kv.2;
     ministere := get kv.2 "line_ministry"; region := get kv.2 "region_lib";
     ancienMinistere := None; modifications := None |}.

(** The body of [Object.keys(previousState).forEach(id => ...)]. *)
Definition removed_step (indexed : snapshot) (acc : list entry)
    (kv : string * record) : list entry :=
  match indexed !! kv.1 with
  | None => acc ++ [removed_entry kv]
  | Some _ => acc
  end.

Definition detectChanges (now : string) (previousState : snapshot)
    (currentData : list record) : changes :=
  let st := foldl (scan_step previousState) scan_init currentData in
  {| nouveaux := sc_nouveaux st;
     modifies := sc_modifies st;
     supprimes := foldl (removed_step (currentIndexed st)) []
                    (map_to_list previousState);
     timestamp := now |}.

(** ** fetchAllData

    The remote API is an oracle: [api n page] is what the [n]-th call of
    [fetch] receives when it asks for [page]. *)

(** The parsed body: [result.data] and [result.meta?.total], either of
    which may be missing. *)
Record body := {
  data : option (list record);
  meta_total : option Z
}.

Inductive response :=
  | NetworkError                       (* [fetch] rejects *)
  | Response (ok : bool) (status : nat) (json : option body).
                                       (* [json = None]: [response.json()] rejects *)

Abbreviation API := (nat → nat → response).

Inductive event :=
  | EFetch (page : nat)                (* [fetch(url)] *)
  | ESleep (ms : nat)                  (* [setTimeout(resolve, ms)] *)
  | EProgress (page count : nat) (total : Z)
  | EWarnCeiling                       (* [console.warn]: page limit reached *)
  | EError (page : nat)                (* [console.error]: page failed *)
  | ERetryFailed (page : nat)          (* [console.error]: retry threw *)
  | EDone (count : nat) (total : Z)
  | EWriteState                        (* [writeFileSync] of previous-state.json *)
  | EWriteReport.                      (* [writeFileSync] of changes-<date>.json *)

Global Instance event_eq_dec : EqDecision event.
Proof. solve_decision. Defined.

(** Exceptions: a computation either throws or yields a value. *)
Inductive thrown := Thrown (message : string).

Definition exc (A : Type) : Type := thrown + A.

Definition throw {A} (message : string) : exc A := inl (Thrown message).

Definition bind_exc {A B} (m : exc A) (k : A → exc B) : exc B :=
  match m with
  | inl e => inl e
  | inr a => k a
  end.

Notation "x ←! m ; k" := (bind_exc m (λ x, k))
  (at level 20, m at level 100, k at level 200, right associativity,
   format "x  ←!  m ;  '/' k").
Notation "' pat ←! m ; k" := (bind_exc m (λ pat, k))
  (at level 20, pat pattern, m at level 100, k at level 200,
   right associativity, format "' pat  ←!  m ;  '/' k").

(** [try { body } catch (e) { handler }] *)
Definition try_catch {A} (body : exc A) (handler : thrown → A) : A :=
  match body with
  | inl e => handler e
  | inr a => a
  end.

(** [await fetch(url)] *)
Definition fetch (api : API) (n page : nat) : exc (bool * nat * option body) :=
  match api n page with
  | NetworkError => throw "fetch failed"
  | Response ok status json => inr (ok, status, json)
  end.

(** [await response.json()] *)
Definition response_json (json : option body) : exc body :=
  match json with
  | None => throw "invalid json"
  | Some b => inr b
  end.

(** The mutable locals of [fetchAllData], the number of requests issued
    and what has been observed so far. *)
Record fetch_state := {
  allData : list record;
  currentPage : nat;
  hasMore : bool;
  total : Z;
  requests : nat;
  trace : list event
}.

(** How one pass through the body of [while (hasMore)] ends. *)
Inductive pass :=
  | Continue (s : fetch_state)         (* falls through, or [continue] *)
  | BreakCeiling (s : fetch_state)     (* [break] after the page-limit warning *)
  | BreakFailure (s : fetch_state).    (* [break] at the end of [catch] *)

(** The body of [try] of the first attempt. *)
Definition first_attempt (api : API) (s : fetch_state) : exc pass :=
  let page := currentPage s in
  '(ok, status, json) ←! fetch api (requests s) page;
  _ ←! (if negb ok then throw ("HTTP " +:+ pretty status) else inr ());
  result ←! response_json json;
  let pageData := default [] (data result) in
  let total' := default 0%Z (meta_total result) in
  let allData' := allData s ++ pageData in
  let hasMore' := bool_decide (Z.of_nat (length allData') < total')%Z
                  && bool_decide (0 < length pageData)%nat in
  let progress :=
    if bool_decide (page `mod` 100 = 0)%nat || negb hasMore'
    then [EProgress page (length allData') total'] else [] in
  let currentPage' := S page in
  let pause := if hasMore' then [ESleep 50] else [] in
  let s' warn :=
    {| allData := allData'; currentPage := currentPage'; hasMore := hasMore';
       total := total'; requests := S (requests s);
       trace := trace s ++ [EFetch page] ++ progress ++ pause ++ warn |} in
  if bool_decide (MAX_PAGES < currentPage')%nat
  then inr (BreakCeiling (s' [EWarnCeiling]))
  else inr (Continue (s' [])).

(** The handler [catch (error) { ... }]: back off, retry once. *)
Definition retry (api : API) (s : fetch_state) : pass :=
  let page := currentPage s in
  let waited := trace s ++ [EFetch page; EError page; ESleep 2000; EFetch page] in
  let gave_up log :=
    BreakFailure
      {| allData := allData s; currentPage := page; hasMore := hasMore s;
         total := total s; requests := S (S (requests s));
         trace := waited ++ log |} in
  let second : exc pass :=
    '(ok, status, json) ←! fetch api (S (requests s)) page;
    if ok then
      result ←! response_json json;
      let pageData := default [] (data result) in
      inr (Continue
        {| allData := allData s ++ pageData; currentPage := S page;
           hasMore := hasMore s; total := total s;
           requests := S (S (requests s)); trace := waited |})
    else inr (gave_up []) in
  try_catch second (λ _, gave_up [ERetryFailed page]).

Definition iteration (api : API) (s : fetch_state) : pass :=
  try_catch (first_attempt api s) (λ _, retry api s).

(** How [while (hasMore)] was left. *)
Inductive loop_exit := Exhausted | Ceiling | Aborted.

(** [while (hasMore) { ... }], bounded by [fuel] passes: [None] when the
    loop is still running after [fuel] passes. *)
Fixpoint fetch_loop (api : API) (fuel : nat) (s : fetch_state)
    : option (loop_exit * fetch_state) :=
  if negb (hasMore s) then Some (Exhausted, s)
  else match fuel with
       | O => None
       | S fuel' =>
           match iteration api s with
           | Continue s' => fetch_loop api fuel' s'
           | BreakCeiling s' => Some (Ceiling, s')
           | BreakFailure s' => Some (Aborted, s')
           end
       end.

Definition fetch_init : fetch_state :=
  {| allData := []; currentPage := 1; hasMore := true; total := 0;
     requests := 0; trace := [] |}.

Record fetched := {
  records : list record;
  exit : loop_exit;
  observed : list event
}.

Definition fetchAllData (api : API) (fuel : nat) : option fetched :=
  match fetch_loop api fuel fetch_init with
  | None => None
  | Some (why, s) =>
      Some {| records := allData s; exit := why;
              observed := trace s ++ [EDone (length (allData s)) (total s)] |}
  end.

(** ** Snapshot store *)

(** What [previous-state.json] holds. *)
Inductive file :=
  | Missing                            (* no such file *)
  | Corrupt                            (* [JSON.parse] throws *)
  | Json (s : snapshot).               (* parses to the object [s] *)

Definition loadPreviousData (f : file) : snapshot :=
  match f with
  | Json s => s
  | Missing | Corrupt => ∅
  end.

(** [JSON.stringify] leaves out the properties whose value is [undefined];
    every other scalar is read back as it was written. *)
Definition stringify (s : snapshot) : snapshot :=
  filter (λ kv : string * value, kv.2 ≠ VUndefined) <$> s.

(** Returns the file written and the index. *)
Definition saveCurrentState (data : list record) : file * snapshot :=
  let indexed := index_by_id data in
  (Json (stringify indexed), indexed).

(** ** filterChangesForSubscriber *)

(** [item.ancienMinistere], [undefined] on an entry without the property. *)
Definition ancien (item : entry) : value :=
  default VUndefined (ancienMinistere item).

Definition filterItem (perimetres : list value) (item : entry) : bool :=
  if includes perimetres (ministere item) then true
  else if includes perimetres (region item) then true
  else if truthy (ancien item) && includes perimetres (ancien item) then true
  else false.

Definition filterChangesForSubscriber (c : changes)
    (perimetres : list value) : changes :=
  if includes perimetres (VStr "ALL") then c
  else
    {| nouveaux := filter (λ e, filterItem perimetres e) (nouveaux c);
       modifies := filter (λ e, filterItem perimetres e) (modifies c);
       supprimes := filter (λ e, filterItem perimetres e) (supprimes c);
       timestamp := timestamp c |}.

(** The same function over a store of mutable objects, where arrays and
    change sets are referred to by location and [Array.prototype.filter]
    allocates the array it returns. *)
Module Store.

Abbreviation loc := nat.

Inductive cell :=
  | CEntry (e : entry)
  | CArray (items : list loc)
  | CTokens (tokens : list value)
  | CChanges (nouveaux modifies supprimes : loc) (timestamp : string).

Abbreviation store := (gmap loc cell).

Definition alloc (h : store) (c : cell) : store * loc :=
  let l := fresh (dom h) in (<[l := c]> h, l).

(** [filterItem] applied to the entry object at [l]. *)
Definition keep (h : store) (perimetres : list value) (l : loc)
    : option bool :=
  match h !! l with
  | Some (CEntry e) => Some (filterItem perimetres e)
  | _ => None
  end.

Fixpoint select (h : store) (perimetres : list value) (items : list loc)
    : option (list loc) :=
  match items with
  | [] => Some []
  | l :: rest =>
      b ← keep h perimetres l;
      rest' ← select h perimetres rest;
      Some (if b : bool then l :: rest' else rest')
  end.

(** [arr.filter(filterItem)]: a new array, [arr] only read. *)
Definition filter_array (h : store) (perimetres : list value) (arr : loc)
    : option (store * loc) :=
  match h !! arr with
  | Some (CArray items) =>
      kept ← select h perimetres items;
      Some (alloc h (CArray kept))
  | _ => None
  end.

(** [None] stands for a [TypeError] on an ill-shaped argument. *)
Definition filterChangesForSubscriber (h : store) (c perimetres : loc)
    : option (store * loc) :=
  match h !! perimetres with
  | Some (CTokens tokens) =>
      if includes tokens (VStr "ALL") then Some (h, c)
      else
        match h !! c with
        | Some (CChanges n m s ts) =>
            '(h1, n') ← filter_array h tokens n;
            '(h2, m') ← filter_array h1 tokens m;
            '(h3, s') ← filter_array h2 tokens s;
            Some (alloc h3 (CChanges n' m' s' ts))
        | _ => None
        end
  | _ => None
  end.

(** Reading a change set off the store. *)
Definition read_entry (h : store) (l : loc) : option entry :=
  match h !! l with
  | Some (CEntry e) => Some e
  | _ => None
  end.

Definition read_array (h : store) (arr : loc) : option (list entry) :=
  match h !! arr with
  | Some (CArray items) => mapM (read_entry h) items
  | _ => None
  end.

Definition read_changes (h : store) (c : loc) : option changes :=
  match h !! c with
  | Some (CChanges n m s ts) =>
      n' ← read_array h n;
      m' ← read_array h m;
      s' ← read_array h s;
      Some {| nouveaux := n'; modifies := m'; supprimes := s';
              timestamp := ts |}
  | _ => None
  end.

End Store.

(** ** main *)

Record subscriber := {
  email : string;
  nom : string;
  perimetres : list value;
  actif : bool
}.

Definition count (c : changes) : nat :=
  length (nouveaux c) + length (modifies c) + length (supprimes c).

(** What a run leaves behind: the exit status, previous-state.json, the
    change report written (if any), the messages handed to the mail
    service, and the observable events in order. *)
Record run := {
  exit_code : nat;
  disk : file;
  report : option changes;
  outbox : list (string * changes);
  log : list event
}.

Definition deliveries (c : changes) (activeSubscribers : list subscriber)
    : list (string * changes) :=
  omap (λ sub,
          let filteredChanges := filterChangesForSubscriber c (perimetres sub) in
          if bool_decide (count filteredChanges = 0) then None
          else Some (email sub, filteredChanges))
       activeSubscribers.

(** [subscribers] is the parsed [abonnes] list of subscribers.json. *)
Definition main (api : API) (fuel : nat) (now : string) (isDryRun : bool)
    (subscribers : list subscriber) (disk0 : file) : option run :=
  let previousState := loadPreviousData disk0 in
  let isFirstRun := bool_decide (size previousState = 0) in
  fetched ← fetchAllData api fuel;
  let currentData := records fetched in
  if bool_decide (length currentData = 0) then
    Some {| exit_code := 1; disk := disk0; report := None; outbox := [];
            log := observed fetched |}
  else
    let '(written, currentState) := saveCurrentState currentData in
    let log1 := observed fetched ++ [EWriteState] in
    if isFirstRun then
      Some {| exit_code := 0; disk := written; report := None; outbox := [];
              log := log1 |}
    else
      let changes := detectChanges now previousState currentData in
      if bool_decide (count changes = 0) then
        Some {| exit_code := 0; disk := written; report := None;
                outbox := []; log := log1 |}
      else
        let activeSubscribers := filter (λ a, actif a) subscribers in
        Some {| exit_code := 0; disk := written; report := Some changes;
                outbox := if isDryRun then []
                          else deliveries changes activeSubscribers;
                log := log1 ++ [EWriteReport] |}.

(** ** generateEmailHTML

    [date] is [new Date().toLocaleDateString('fr-FR', ...)].  The text of
    the template literals is the source's, character for character; the
    double-quote character is spelled [dq]. *)

Definition dq : string := String (Ascii.ascii_of_nat 34) "".

(** [${v || 'd'}] *)
Definition or_text (v : value) (d : string) : string :=
  if truthy v then ToString v else d.

Definition html_head (c : changes) (subscriberName date : string) : string :=
  "
<!DOCTYPE html>
<html lang=" +:+
  dq +:+ "fr" +:+ dq +:+ ">
<head>
  <meta charset=" +:+
  dq +:+ "UTF-8" +:+ dq +:+ ">
  <style>
    body { font-family: Arial, sans-serif; line-height: 1.6; color: #333; max-width: 800px; margin: 0 auto; padding: 20px; }
    h1 { color: #000091; border-bottom: 3px solid #000091; padding-bottom: 10px; }
    h2 { color: #000091; margin-top: 30px; }
    h3 { color: #666; margin-top: 20px; }
    .summary { background: #f5f5fe; padding: 15px; border-radius: 5px; margin: 20px 0; }
    .summary-item { display: inline-block; margin-right: 30px; }
    .summary-number { font-size: 24px; font-weight: bold; }
    .new { color: #18753c; }
    .modified { color: #b34000; }
    .deleted { color: #ce0500; }
    .ministry-change { background: #fff3cd; padding: 5px 10px; border-radius: 3px; margin: 5px 0; }
    table { width: 100%; border-collapse: collapse; margin: 15px 0; }
    th, td { padding: 10px; text-align: left; border-bottom: 1px solid #ddd; }
    th { background: #f5f5f5; }
    .change-detail { margin: 5px 0; padding: 5px; background: #f9f9f9; }
    .old-value { color: #ce0500; text-decoration: line-through; }
    .new-value { color: #18753c; font-weight: bold; }
    .footer { margin-top: 40px; padding-top: 20px; border-top: 1px solid #ddd; font-size: 0.9em; color: #666; }
  </style>
</head>
<body>
  <h1>🔔 Alerte SPE - Changements détectés</h1>
  <p>Bonjour " +:+
  subscriberName +:+ ",</p>
  <p>Des changements ont été détectés dans le Registre national des cantines le <strong>" +:+
  date +:+ "</strong>.</p>
  
  <div class=" +:+
  dq +:+ "summary" +:+ dq +:+ ">
    <div class=" +:+
  dq +:+ "summary-item" +:+ dq +:+ ">
      <span class=" +:+
  dq +:+ "summary-number new" +:+ dq +:+ ">" +:+ (pretty (length (nouveaux c))) +:+
  "</span><br>
      <span>Nouveau(x)</span>
    </div>
    <div class=" +:+
  dq +:+ "summary-item" +:+ dq +:+ ">
      <span class=" +:+
  dq +:+ "summary-number modified" +:+ dq +:+ ">" +:+ (pretty (length (modifies c))) +:+
  "</span><br>
      <span>Modifié(s)</span>
    </div>
    <div class=" +:+
  dq +:+ "summary-item" +:+ dq +:+ ">
      <span class=" +:+
  dq +:+ "summary-number deleted" +:+ dq +:+ ">" +:+ (pretty (length (supprimes c))) +:+
  "</span><br>
      <span>Supprimé(s)</span>
    </div>
  </div>
".

Definition html_nouveaux_head (c : changes) : string :=
  "
  <h2 class=" +:+
  dq +:+ "new" +:+ dq +:+ ">✅ Nouveaux établissements (" +:+ (pretty (length (nouveaux c))) +:+
  ")</h2>
  <table>
    <thead>
      <tr>
        <th>Nom</th>
        <th>SIRET</th>
        <th>Ville</th>
        <th>Ministère</th>
        <th>Secteur</th>
      </tr>
    </thead>
    <tbody>
".

Definition html_nouveau_row (item : entry) : string :=
  let e := etablissement item in
  "
      <tr>
        <td><strong>" +:+
  (or_text (get e "name") "-") +:+ "</strong></td>
        <td>" +:+
  (or_text (get e "siret") "-") +:+ "</td>
        <td>" +:+
  (or_text (get e "city") "-") +:+ "</td>
        <td>" +:+
  (or_text (get e "line_ministry") "-") +:+ "</td>
        <td>" +:+
  (or_text (get e "sector_list") "-") +:+ "</td>
      </tr>
".

Definition html_table_end : string :=
  "
    </tbody>
  </table>
".

Definition html_modifies_head (c : changes) : string :=
  "
  <h2 class=" +:+
  dq +:+ "modified" +:+ dq +:+ ">📝 Établissements modifiés (" +:+ (pretty (length (modifies c))) +:+
  ")</h2>
".

Definition html_modifie_title (e : record) : string :=
  "
  <h3>" +:+
  (or_text (get e "name") "Sans nom") +:+ " (" +:+ (or_text (get e "siret") "Sans SIRET") +:+
  ")</h3>
  <p><em>" +:+
  (or_text (get e "city") "") +:+ " - " +:+ (or_text (get e "region_lib") "") +:+
  "</em></p>
".

Definition rattachement_html (newMinistry : string) : string :=
  "<div class=" +:+ dq +:+ "ministry-change" +:+ dq +:+ ">🏛️ <strong>RATTACHEMENT SPE:</strong> Nouvel établissement rattaché à <strong>" +:+
  newMinistry +:+ "</strong></div>".

Definition retrait_html (oldMinistry : string) : string :=
  "<div class=" +:+ dq +:+ "ministry-change" +:+ dq +:+ ">⚠️ <strong>RETRAIT SPE:</strong> Établissement retiré du périmètre (était: " +:+
  oldMinistry +:+ ")</div>".

Definition changement_html (oldMinistry newMinistry : string) : string :=
  "<div class=" +:+ dq +:+ "ministry-change" +:+ dq +:+ ">🔄 <strong>CHANGEMENT MINISTÈRE:</strong> " +:+
  oldMinistry +:+ " → " +:+ newMinistry +:+ "</div>".

Definition html_detail (m : modification) : string :=
  "
  <div class=" +:+
  dq +:+ "change-detail" +:+ dq +:+ ">
    <strong>" +:+
  (label m) +:+ ":</strong> 
    <span class=" +:+
  dq +:+ "old-value" +:+ dq +:+ ">" +:+ (or_text (ancienne_valeur m) "(vide)") +:+
  "</span> 
    → 
    <span class=" +:+
  dq +:+ "new-value" +:+ dq +:+ ">" +:+ (or_text (nouvelle_valeur m) "(vide)") +:+
  "</span>
  </div>
".

Definition html_supprimes_head (c : changes) : string :=
  "
  <h2 class=" +:+
  dq +:+ "deleted" +:+ dq +:+ ">❌ Établissements supprimés (" +:+ (pretty (length (supprimes c))) +:+
  ")</h2>
  <table>
    <thead>
      <tr>
        <th>Nom</th>
        <th>SIRET</th>
        <th>Ville</th>
        <th>Ministère</th>
      </tr>
    </thead>
    <tbody>
".

Definition html_supprime_row (item : entry) : string :=
  let e := etablissement item in
  "
      <tr>
        <td>" +:+
  (or_text (get e "name") "-") +:+ "</td>
        <td>" +:+
  (or_text (get e "siret") "-") +:+ "</td>
        <td>" +:+
  (or_text (get e "city") "-") +:+ "</td>
        <td>" +:+
  (or_text (get e "line_ministry") "-") +:+ "</td>
      </tr>
".

Definition html_foot : string :=
  "
  <div class=" +:+
  dq +:+ "footer" +:+ dq +:+ ">
    <p>Ce message est généré automatiquement par le système de surveillance SPE.</p>
    <p>Pour modifier vos préférences d'alerte, contactez l'administrateur.</p>
    <p>Source des données: <a href=" +:+
  dq +:+ "https://data.gouv.fr/fr/datasets/registre-national-des-cantines/" +:+
  dq +:+ ">Registre national des cantines (data.gouv.fr)</a></p>
  </div>
</body>
</html>
".

(** The highlighted change of supervising authority. *)
Definition ministry_banner (ministryChange : modification) : string :=
  let oldMinistry := or_text (ancienne_valeur ministryChange) "(aucun)" in
  let newMinistry := or_text (nouvelle_valeur ministryChange) "(aucun)" in
  if negb (truthy (ancienne_valeur ministryChange))
     && truthy (nouvelle_valeur ministryChange)
  then rattachement_html newMinistry
  else if truthy (ancienne_valeur ministryChange)
          && negb (truthy (nouvelle_valeur ministryChange))
  then retrait_html oldMinistry
  else changement_html oldMinistry newMinistry.

(** [item.modifications.find(m => m.champ === 'line_ministry')] *)
Definition find_ministry_change (mods : list modification)
    : option modification :=
  List.find (λ m, bool_decide (champ m = "line_ministry")) mods.

(** The body of [item.modifications.forEach(mod => ...)]. *)
Definition render_detail (html : string) (m : modification) : string :=
  if bool_decide (champ m = "line_ministry") then html
  else html +:+ html_detail m.

(** The body of [changes.modifies.forEach(item => ...)]; reading
    [item.modifications] on an entry without the property throws. *)
Definition render_modifie (html : string) (item : entry) : exc string :=
  let e := etablissement item in
  match modifications item with
  | None => throw "Cannot read properties of undefined (reading 'find')"
  | Some mods =>
      let ministryChange := find_ministry_change mods in
      let html := html +:+ html_modifie_title e in
      let html :=
        match ministryChange with
        | Some mc => html +:+ ministry_banner mc
        | None => html
        end in
      inr (foldl render_detail html mods)
  end.

(** [forEach] with a body that may throw. *)
Fixpoint for_each {A S} (body : S → A → exc S) (s : S) (l : list A) : exc S :=
  match l with
  | [] => inr s
  | a :: l' => s' ←! body s a; for_each body s' l'
  end.

Definition generateEmailHTML (c : changes) (subscriberName date : string)
    : exc string :=
  let html := html_head c subscriberName date in
  let html :=
    if bool_decide (0 < length (nouveaux c)) then
      foldl (λ html item, html +:+ html_nouveau_row item)
            (html +:+ html_nouveaux_head c) (nouveaux c)
      +:+ html_table_end
    else html in
  html ←! (if bool_decide (0 < length (modifies c)) then
             for_each render_modifie (html +:+ html_modifies_head c) (modifies c)
           else inr html);
  let html :=
    if bool_decide (0 < length (supprimes c)) then
      foldl (λ html item, html +:+ html_supprime_row item)
            (html +:+ html_supprimes_head c) (supprimes c)
      +:+ html_table_end
    else html in
  inr (html +:+ html_foot).

(** ** loadSubscribers *)

(** [parametres] of subscribers.json; an absent property is [undefined]. *)
Record parametres := {
  sender_email : value;
  subject_prefix : value
}.

(** What config/subscribers.json holds. *)
Inductive config_file :=
  | NoConfig                           (* no such file *)
  | BadConfig                          (* [JSON.parse] throws *)
  | Config (abonnes : list subscriber) (p : parametres).

Definition loadSubscribers (f : config_file)
    : exc (list subscriber * parametres) :=
  match f with
  | NoConfig =>
      inr ([], {| sender_email := VUndefined; subject_prefix := VUndefined |})
  | BadConfig => throw "Unexpected token in JSON"
  | Config abonnes p => inr (abonnes, p)
  end.

(** ** sendEmailResend

    The mail service is an oracle: [mailer n request] is the answer to the
    [n]-th request posted. *)

Record payload := {
  from : value;
  to : list string;
  subject : string;
  html : string
}.

(** The POST request: the bearer token and the JSON body. *)
Record request := {
  authorization : string;
  json_body : payload
}.

Inductive mail_response :=
  | MailNetworkError                   (* [fetch] rejects *)
  | MailResponse (ok : bool) (result : option value).
                                       (* [None]: [response.json()] rejects *)

Abbreviation Mailer := (nat → request → mail_response).

Inductive mail_event :=
  | MNoKey                             (* [console.error]: key not defined *)
  | MPost (r : request)                (* [fetch] of the mail service *)
  | MSent (recipient : string)         (* [console.log]: sent *)
  | MError (recipient : string)        (* [console.error]: not sent *)
  | MSkip (recipient : string)         (* [console.log]: nothing in scope *)
  | MSleep (ms : nat).                 (* [setTimeout(resolve, ms)] *)

(** [a || b] on values. *)
Definition js_or (a b : value) : value := if truthy a then a else b.

(** [RESEND_API_KEY] is [process.env.RESEND_API_KEY]: a string, or
    undefined.  Returns the result and what was observed. *)
Definition sendEmailResend (RESEND_API_KEY : option string) (mailer : Mailer)
    (n : nat) (recipient toName subject htmlContent : string)
    (config : parametres) : bool * list mail_event :=
  match RESEND_API_KEY with
  | None | Some "" => (false, [MNoKey])
  | Some key =>
      let payload :=
        {| from := js_or (sender_email config)
                     (VStr "SPE Monitor <onboarding@resend.dev>");
           to := [recipient]; subject := subject; html := htmlContent |} in
      let req := {| authorization := "Bearer " +:+ key; json_body := payload |} in
      let attempt : exc (bool * list mail_event) :=
        match mailer n req with
        | MailNetworkError => throw "fetch failed"
        | MailResponse ok result =>
            _ ←! (match result with
                  | None => throw "invalid json"
                  | Some r => inr r
                  end);
            if negb ok then inr (false, [MPost req; MError recipient])
            else inr (true, [MPost req; MSent recipient])
        end in
      try_catch attempt (λ _, (false, [MPost req; MError recipient]))
  end.

(** ** The sending loop of main *)

(** The mutable state of the loop: [emailsSent], and what was observed. *)
Record sending := {
  emailsSent : nat;
  journal : list mail_event
}.

(** The requests posted so far. *)
Definition posted (evs : list mail_event) : list request :=
  omap (λ e, match e with MPost r => Some r | _ => None end) evs.

(** The body of [for (const subscriber of activeSubscribers)]. *)
Definition notify_step (RESEND_API_KEY : option string) (mailer : Mailer)
    (changes : changes) (parametres : parametres) (date : string)
    (st : sending) (subscriber : subscriber) : exc sending :=
  let filteredChanges :=
    filterChangesForSubscriber changes (perimetres subscriber) in
  let subscriberTotal := count filteredChanges in
  if bool_decide (subscriberTotal = 0) then
    inr {| emailsSent := emailsSent st;
           journal := journal st ++ [MSkip (email subscriber)] |}
  else
    let subject :=
      or_text (subject_prefix parametres) "[SPE]" +:+ " "
      +:+ pretty subscriberTotal +:+ " changement(s) détecté(s)" in
    html ←! generateEmailHTML filteredChanges (nom subscriber) date;
    let '(success, observed) :=
      sendEmailResend RESEND_API_KEY mailer
        (length (posted (journal st)))
        (email subscriber) (nom subscriber) subject html parametres in
    inr {| emailsSent := if success then S (emailsSent st) else emailsSent st;
           journal := journal st ++ observed ++ [MSleep 500] |}.

(** Step 8 of main, when it is not a dry run: load the subscribers, keep
    the active ones, write to each in turn.  An exception ends the run
    with exit status 1. *)
Definition send_alerts (RESEND_API_KEY : option string) (mailer : Mailer)
    (config : config_file) (changes : changes) (date : string) : exc sending :=
  '(abonnes, parametres) ←! loadSubscribers config;
  let activeSubscribers := filter (λ a, actif a) abonnes in
  for_each (notify_step RESEND_API_KEY mailer changes parametres date)
           {| emailsSent := 0; journal := [] |} activeSubscribers.

(** * Vocabulary of the statements *)

(** ** Ids, membership and agreement *)

(** The property key under which a record is indexed, if it has an
    identifier at all. *)
Definition key_of (item : record) : option string :=
  if truthy (get item "id") then Some (ToString (get item "id")) else None.

(** [item.id] is truthy. *)
Definition has_id (item : record) : Prop := truthy (get item "id") = true.

Global Instance has_id_dec item : Decision (has_id item).
Proof. unfold has_id. apply _. Defined.

(** An id occurs in the current record sequence. *)
Definition in_current (k : string) (currentData : list record) : Prop :=
  ∃ item, item ∈ currentData ∧ key_of item = Some k.

(** An id occurs in a snapshot. *)
Definition in_snapshot (k : string) (s : snapshot) : Prop := is_Some (s !! k).

(** An id occurs in one of the sequences of a change set. *)
Definition listed (k : string) (l : list entry) : Prop :=
  ∃ e, e ∈ l ∧ ToString (id e) = k.

(** Two records agree on every monitored field, after normalization. *)
Definition same_monitored (previous item : record) : Prop :=
  ∀ field, field ∈ MONITORED_FIELDS →
    normalize (get previous field) = normalize (get item field).

(** A snapshot is keyed by the identifiers of its records. *)
Definition keyed (s : snapshot) : Prop :=
  map_Forall (λ k r, key_of r = Some k) s.

(** The values the normalization collapses. *)
Definition empty_like (v : value) : Prop :=
  v = VNull ∨ v = VUndefined ∨ v = VStr "".

Definition no_changes (now : string) : changes :=
  {| nouveaux := []; modifies := []; supprimes := []; timestamp := now |}.

(** ** The loops of detectChanges in closed form *)

Definition added_of (previousState : snapshot) (item : record) : option entry :=
  k ← key_of item;
  match previousState !! k with
  | None => Some (new_entry item)
  | Some _ => None
  end.

Definition modified_of (previousState : snapshot) (item : record)
    : option entry :=
  k ← key_of item;
  previous ← previousState !! k;
  match field_modifications previous item with
  | [] => None
  | mods => Some (modified_entry previous item mods)
  end.

Definition removed_of (indexed : snapshot) (kv : string * record)
    : option entry :=
  match indexed !! kv.1 with
  | None => Some (removed_entry kv)
  | Some _ => None
  end.

Definition modification_of (previous item : record) (field : string)
    : option modification :=
  if bool_decide (normalize (get previous field) ≠ normalize (get item field))
  then Some {| champ := field; label := label_of field;
               ancienne_valeur := get previous field;
               nouvelle_valeur := get item field |}
  else None.

(** ** The scope rule *)

(** The entry's current supervising authority or region is a scope token. *)
Definition in_scope_now (tokens : list value) (e : entry) : Prop :=
  ministere e ∈ tokens ∨ region e ∈ tokens.

(** The entry records a previous supervising authority, that authority is
    not empty, and it is a scope token. *)
Definition in_scope_before (tokens : list value) (e : entry) : Prop :=
  match ancienMinistere e with
  | Some a => truthy a = true ∧ a ∈ tokens
  | None => False
  end.

Definition retained (tokens : list value) (e : entry) : Prop :=
  in_scope_now tokens e ∨ in_scope_before tokens e.

Global Instance retained_dec tokens e : Decision (retained tokens e).
Proof.
  unfold retained, in_scope_now, in_scope_before.
  destruct (ancienMinistere e); apply _.
Defined.

(** The rule as the specification words it: the previous authority is a
    scope token, whatever its value. *)
Definition retained_as_specified (tokens : list value) (e : entry) : Prop :=
  ministere e ∈ tokens ∨ region e ∈ tokens
  ∨ match ancienMinistere e with
    | Some a => a ∈ tokens
    | None => False
    end.

(** ** The fetch loop: failures, passes, events *)

(** A request that makes the first attempt throw, or the retry give up:
    a network error, a non-success status, or a body that is not JSON. *)
Definition fails (r : response) : Prop :=
  match r with
  | Response true _ (Some _) => False
  | _ => True
  end.

Global Instance fails_dec r : Decision (fails r).
Proof. destruct r as [|[] ? []]; simpl; apply _. Defined.

(** [k] passes through the loop body, none of them leaving the loop. *)
Fixpoint passes (api : API) (k : nat) (s : fetch_state) : option fetch_state :=
  match k with
  | O => Some s
  | S k' =>
      if hasMore s then
        match iteration api s with
        | Continue s' => passes api k' s'
        | _ => None
        end
      else None
  end.

Definition state_of (p : pass) : fetch_state :=
  match p with
  | Continue s | BreakCeiling s | BreakFailure s => s
  end.

(** The events of the fetch loop: everything but the two file writes. *)
Definition fetch_event (e : event) : Prop :=
  e ≠ EWriteState ∧ e ≠ EWriteReport.

(** No retry succeeds: whenever a request fails, so does the next one for
    the same page. *)
Definition no_retry_succeeds (api : API) : Prop :=
  ∀ n page, fails (api n page) → fails (api (S n) page).

(** ** Sample inputs *)

(** Building records for examples: [{id: 1, name: "A"}] is
    [obj [("id", VNum 1); ("name", VStr "A")]]. *)
Definition obj (props : list (string * value)) : record := list_to_map props.

Definition sample_previous : snapshot :=
  list_to_map
    [ ("1", obj [("id", VNum 1); ("name", VStr "A"); ("daily_meal_count", VNum 100)]);
      ("2", obj [("id", VNum 2); ("name", VStr "B"); ("siret", VNull)]) ].

Definition sample_current : list record :=
  [ obj [("id", VNum 2); ("name", VStr "B"); ("siret", VStr "")];
    obj [("id", VNum 3); ("name", VStr "C")];
    obj [("name", VStr "no identifier")] ].

Definition sample_null : record :=
  obj [("id", VNum 7); ("siret", VNull); ("daily_meal_count", VNum 100)].

Definition sample_blank : record :=
  obj [("id", VNum 7); ("siret", VStr ""); ("daily_meal_count", VStr "100");
       ("city", VUndefined)].

(** A subscriber watching the institutions without an authority, and an
    institution that has just been attached to one. *)
Definition sample_unattached : snapshot :=
  {[ "1" := obj [("id", VNum 1); ("line_ministry", VStr "");
                 ("region_lib", VStr "Bretagne")] ]}.

Definition sample_attached : list record :=
  [ obj [("id", VNum 1); ("line_ministry", VStr "Justice");
         ("region_lib", VStr "Bretagne")] ].

Definition sample_attachment : entry :=
  modified_entry
    (obj [("id", VNum 1); ("line_ministry", VStr ""); ("region_lib", VStr "Bretagne")])
    (obj [("id", VNum 1); ("line_ministry", VStr "Justice"); ("region_lib", VStr "Bretagne")])
    [ {| champ := "line_ministry"; label := "Ministère de tutelle";
         ancienne_valeur := VStr ""; nouvelle_valeur := VStr "Justice" |} ].

Definition sample_justice : entry :=
  new_entry (obj [("id", VNum 1); ("line_ministry", VStr "Justice")]).

Definition sample_culture : entry :=
  new_entry (obj [("id", VNum 2); ("line_ministry", VStr "Culture")]).

(** Tokens at 0, two entries at 1 and 2, the three arrays at 3, 4, 5 and
    the change set at 6. *)
Definition sample_store : Store.store :=
  list_to_map
    [ (0, Store.CTokens [VStr "Justice"]);
      (1, Store.CEntry sample_justice);
      (2, Store.CEntry sample_culture);
      (3, Store.CArray [2; 1; 2]);
      (4, Store.CArray []);
      (5, Store.CArray [1]);
      (6, Store.CChanges 3 4 5 "2024-01-01T07:00:00.000Z") ].

Definition sample_changes : changes :=
  {| nouveaux := [sample_culture; sample_justice; sample_culture];
     modifies := [];
     supprimes := [sample_justice];
     timestamp := "2024-01-01T07:00:00.000Z" |}.

(** A server holding one record that answers every other request with
    429 Too Many Requests. *)
Definition throttled : API := λ n page,
  if Nat.even n then Response false 429 None
  else Response true 200
         (Some {| data := Some (if bool_decide (page = 1)
                                then [obj [("id", VNum 1)]] else []);
                  meta_total := Some 1%Z |}).

(** A server that reports ten records and holds one. *)
Definition overstating : API := λ n page,
  Response true 200
    (Some {| data := Some (if bool_decide (page = 1)
                           then [obj [("id", VNum 1)]] else []);
             meta_total := Some 10%Z |}).

(** A server that serves the first page of two and then goes away. *)
Definition vanishing : API := λ n page,
  match n with
  | 0 => Response true 200
           (Some {| data := Some [obj [("id", VNum 1); ("name", VStr "A")]];
                    meta_total := Some 2%Z |})
  | _ => NetworkError
  end.

(** ** Further vocabulary: classification of the current records *)

Global Instance same_monitored_dec previous item :
  Decision (same_monitored previous item).
Proof.
  refine (cast_if (decide (Forall (λ field,
            normalize (get previous field) = normalize (get item field))
            MONITORED_FIELDS)));
    unfold same_monitored; by rewrite <- Forall_forall.
Defined.

(** The record has an identifier the baseline does not know. *)
Definition is_new (previousState : snapshot) (item : record) : Prop :=
  match key_of item with
  | Some k => previousState !! k = None
  | None => False
  end.

(** The record has an identifier the baseline knows, with a monitored
    field that differs. *)
Definition is_changed (previousState : snapshot) (item : record) : Prop :=
  match key_of item with
  | Some k =>
      match previousState !! k with
      | Some previous => ¬ same_monitored previous item
      | None => False
      end
  | None => False
  end.

(** The record has an identifier the baseline knows, with all monitored
    fields as they were. *)
Definition is_unchanged (previousState : snapshot) (item : record) : Prop :=
  match key_of item with
  | Some k =>
      match previousState !! k with
      | Some previous => same_monitored previous item
      | None => False
      end
  | None => False
  end.

Global Instance is_new_dec P item : Decision (is_new P item).
Proof. unfold is_new. destruct (key_of item); apply _. Defined.

Global Instance is_changed_dec P item : Decision (is_changed P item).
Proof.
  unfold is_changed. destruct (key_of item) as [k|]; [|apply _].
  destruct (P !! k); apply _.
Defined.

Global Instance is_unchanged_dec P item : Decision (is_unchanged P item).
Proof.
  unfold is_unchanged. destruct (key_of item) as [k|]; [|apply _].
  destruct (P !! k); apply _.
Defined.

(** Records of the sequence that carry the same id agree on the monitored
    fields (in particular: no id occurs twice). *)
Definition consistent_ids (currentData : list record) : Prop :=
  ∀ r1 r2 k, r1 ∈ currentData → r2 ∈ currentData →
    key_of r1 = Some k → key_of r2 = Some k → same_monitored r1 r2.

(** ** Further vocabulary: a server that answers every request *)

(** The records of page [p] of a book of pages. *)
Definition page_records (book : nat → body) (p : nat) : list record :=
  default [] (data (book p)).

(** The records of pages 1 to [k], in order. *)
Definition pages_upto (book : nat → body) (k : nat) : list record :=
  concat (page_records book <$> seq 1 k).

(** The server answers every request for page [p] with the body [book p]. *)
Definition serves (api : API) (book : nat → body) : Prop :=
  ∀ n p, ∃ status, api n p = Response true status (Some (book p)).

(** After page [p] the loop goes on: the page was not empty and the
    records so far are fewer than the total it reported. *)
Definition goes_on (book : nat → body) (p : nat) : Prop :=
  (Z.of_nat (length (pages_upto book p)) < default 0%Z (meta_total (book p)))%Z
  ∧ 0 < length (page_records book p).

(** No successful response carries more than [size] records. *)
Definition page_size_at_most (api : API) (size : nat) : Prop :=
  ∀ n p status b, api n p = Response true status (Some b) →
    length (default [] (data b)) ≤ size.

(** A book of two pages of one record each, reporting two records. *)
Definition two_pages : nat → body := λ p,
  {| data := Some (if bool_decide (p ≤ 2) then [obj [("id", VNum (Z.of_nat p))]]
                   else []);
     meta_total := Some 2%Z |}.

(** The event is a request. *)
Definition is_fetch (e : event) : Prop :=
  match e with
  | EFetch _ => True
  | _ => False
  end.

Global Instance is_fetch_dec e : Decision (is_fetch e).
Proof. destruct e; simpl; apply _. Defined.

(** A server whose rows name their identifier differently. *)
Definition renamed_ids : API := λ _ _,
  Response true 200
    (Some {| data := Some [obj [("identifiant", VNum 1)]];
             meta_total := Some 1%Z |}).

(** ** Further vocabulary: messages *)

(** Every modified entry carries its list of modifications. *)
Definition renderable (c : changes) : Prop :=
  Forall (λ e, is_Some (modifications e)) (modifies c).

(** A supervising authority as the dataset has it: a string, or nothing. *)
Definition textual (v : value) : Prop :=
  match v with
  | VStr _ | VNull | VUndefined => True
  | _ => False
  end.

(** The key the requests are signed with, if one is set. *)
Definition bearer (RESEND_API_KEY : option string) : option string :=
  match RESEND_API_KEY with
  | None | Some "" => None
  | Some key => Some key
  end.

(** The subscribers whose scope selects something. *)
Definition addressed (c : changes) (subs : list subscriber) : list subscriber :=
  filter (λ sub, count (filterChangesForSubscriber c (perimetres sub)) ≠ 0) subs.

(** The request posted for a subscriber. *)
Definition request_for (key : string) (p : parametres) (date : string)
    (c : changes) (sub : subscriber) : request :=
  let fc := filterChangesForSubscriber c (perimetres sub) in
  {| authorization := "Bearer " +:+ key;
     json_body :=
       {| from := js_or (sender_email p)
                    (VStr "SPE Monitor <onboarding@resend.dev>");
          to := [email sub];
          subject := or_text (subject_prefix p) "[SPE]" +:+ " "
                     +:+ pretty (count fc) +:+ " changement(s) détecté(s)";
          html := match generateEmailHTML fc (nom sub) date with
                  | inr h => h
                  | inl _ => ""
                  end |} |}.

(** The service takes the message: a success status and a JSON body. *)
Definition accepts (r : mail_response) : Prop :=
  match r with
  | MailResponse true (Some _) => True
  | _ => False
  end.

Global Instance accepts_dec r : Decision (accepts r).
Proof. destruct r as [|[] []]; simpl; apply _. Defined.

(** How many of the requests [rs], posted as the [n]-th and following, the
    service takes. *)
Fixpoint accepted (mailer : Mailer) (n : nat) (rs : list request) : nat :=
  match rs with
  | [] => 0
  | r :: rs' =>
      (if decide (accepts (mailer n r)) then 1 else 0) + accepted mailer (S n) rs'
  end.

(** A mail service that refuses the first message and takes the others. *)
Definition moody : Mailer := λ n _,
  match n with
  | 0 => MailResponse false (Some VNull)
  | _ => MailResponse true (Some (VStr "id"))
  end.

Definition sample_subscribers : list subscriber :=
  [ {| email := "justice@example.org"; nom := "J";
       perimetres := [VStr "Justice"]; actif := true |};
    {| email := "culture@example.org"; nom := "C";
       perimetres := [VStr "Culture"]; actif := true |};
    {| email := "all@example.org"; nom := "A";
       perimetres := [VStr "ALL"]; actif := true |};
    {| email := "off@example.org"; nom := "O";
       perimetres := [VStr "ALL"]; actif := false |} ].

(** * Properties *)

(** Membership in an explicit list, case by case. *)
Ltac elem_of_cases H tac :=
  repeat (apply elem_of_cons in H as [->|H]; [tac|]);
  try (by apply elem_of_nil in H).

(** A value that is none of the elements of an explicit list. *)
Ltac not_listed :=
  let H := fresh "Hin" in
  intros H;
  repeat (apply elem_of_cons in H as [H|H]; [discriminate|]);
  by apply elem_of_nil in H.

(** All monitored fields of two explicit records agree. *)
Ltac same_monitored_by_computation :=
  let f := fresh "f" in
  let Hf := fresh "Hf" in
  intros f Hf; unfold MONITORED_FIELDS in Hf;
  elem_of_cases Hf ltac:(vm_compute; reflexivity).

(** ** The model on the scenarios of the specification *)

Example ToString_numbers :
  ToString (VNum 100) = "100" ∧ ToString (VNum 0) = "0"
  ∧ ToString (VNum (-5)) = "-5".
Proof. by vm_compute. Qed.

Example truthy_ids :
  truthy (VNum 0) = false ∧ truthy (VStr "") = false
  ∧ truthy (VStr "0") = true ∧ truthy (VNum 7) = true.
Proof. by vm_compute. Qed.

(** previous = {1: {name: "A", daily_meal_count: 100}},
    current = [{id: 1, name: "A", daily_meal_count: 150}]: one modified
    entry with one field modification. *)
Example scenario_modified :
  let previous := obj [("name", VStr "A"); ("daily_meal_count", VNum 100)] in
  let item := obj [("id", VNum 1); ("name", VStr "A"); ("daily_meal_count", VNum 150)] in
  let c := detectChanges "now" {["1" := previous]} [item] in
  nouveaux c = [] ∧ supprimes c = []
  ∧ modifies c =
      [ modified_entry previous item
          [ {| champ := "daily_meal_count"; label := "Couverts/jour";
               ancienne_valeur := VNum 100; nouvelle_valeur := VNum 150 |} ] ].
Proof. by vm_compute. Qed.

(** previous has ids 1 and 2, current has 2 and 3. *)
Example scenario_added_removed :
  let P : snapshot :=
    list_to_map [("1", obj [("id", VNum 1)]); ("2", obj [("id", VNum 2)])] in
  let c := detectChanges "now" P [obj [("id", VNum 2)]; obj [("id", VNum 3)]] in
  (id <$> nouveaux c, id <$> modifies c, id <$> supprimes c)
  = ([VNum 3], [], [VStr "1"]).
Proof. by vm_compute. Qed.

(** scope = ["Justice"]: a detachment from Justice is kept, an addition
    under Culture is not. *)
Example scenario_scope :
  let detached :=
    modified_entry (obj [("id", VNum 1); ("line_ministry", VStr "Justice")])
                   (obj [("id", VNum 1); ("line_ministry", VStr "")]) [] in
  let added := new_entry (obj [("id", VNum 2); ("line_ministry", VStr "Culture")]) in
  filterItem [VStr "Justice"] detached = true
  ∧ filterItem [VStr "Justice"] added = false.
Proof. by vm_compute. Qed.

(** ** The loops of detectChanges in closed form *)

Lemma key_of_Some item k :
  key_of item = Some k ↔
  truthy (get item "id") = true ∧ ToString (get item "id") = k.
Proof.
  unfold key_of. destruct (truthy _); split; intros; destruct_and?;
    simplify_eq; auto.
Qed.

Lemma key_of_None item : key_of item = None ↔ truthy (get item "id") = false.
Proof. unfold key_of. destruct (truthy _); split; intros; simplify_eq; auto. Qed.

Lemma scan_step_spec P st item :
  scan_step P st item =
  {| sc_nouveaux := sc_nouveaux st ++ option_list (added_of P item);
     sc_modifies := sc_modifies st ++ option_list (modified_of P item);
     currentIndexed := index_step (currentIndexed st) item |}.
Proof.
  unfold scan_step, added_of, modified_of, index_step, key_of.
  destruct (truthy (get item "id")); simpl.
  - destruct (P !! ToString (get item "id")) as [previous|]; simpl.
    + destruct (field_modifications previous item) as [|m mods]; simpl.
      * by rewrite !app_nil_r.
      * by rewrite app_nil_r.
    + by rewrite app_nil_r.
  - destruct st. by rewrite !app_nil_r.
Qed.

Lemma scan_spec P C st :
  foldl (scan_step P) st C =
  {| sc_nouveaux := sc_nouveaux st ++ omap (added_of P) C;
     sc_modifies := sc_modifies st ++ omap (modified_of P) C;
     currentIndexed := foldl index_step (currentIndexed st) C |}.
Proof.
  revert st. induction C as [|item C IH]; intros st; simpl.
  - destruct st. by rewrite !app_nil_r.
  - rewrite IH, scan_step_spec. simpl. f_equal.
    + rewrite <- app_assoc. f_equal. by destruct (added_of P item).
    + rewrite <- app_assoc. f_equal. by destruct (modified_of P item).
Qed.

Lemma removed_spec indexed l acc :
  foldl (removed_step indexed) acc l = acc ++ omap (removed_of indexed) l.
Proof.
  revert acc. induction l as [|kv l IH]; intros acc; simpl.
  - by rewrite app_nil_r.
  - rewrite IH. unfold removed_step, removed_of.
    destruct (indexed !! kv.1); simpl; [done|]. by rewrite <- app_assoc.
Qed.

Lemma detectChanges_spec now P C :
  detectChanges now P C =
  {| nouveaux := omap (added_of P) C;
     modifies := omap (modified_of P) C;
     supprimes := omap (removed_of (index_by_id C)) (map_to_list P);
     timestamp := now |}.
Proof.
  unfold detectChanges. rewrite scan_spec, removed_spec. done.
Qed.

(** ** The index built from a record sequence *)

Lemma index_lookup C : ∀ (m : snapshot) k r,
  foldl index_step m C !! k = Some r →
  m !! k = Some r ∨ (r ∈ C ∧ key_of r = Some k).
Proof.
  induction C as [|item C IH]; intros m k r; simpl; [auto|].
  intros [H|[H1 H2]]%IH.
  - unfold index_step in H. destruct (truthy (get item "id")) eqn:Hid; [|auto].
    rewrite lookup_insert in H. case_decide; [|auto].
    simplify_eq. right. split; [left|]. by apply key_of_Some.
  - right. split; [by right|done].
Qed.

Lemma index_is_Some C : ∀ (m : snapshot) k,
  is_Some (foldl index_step m C !! k) ↔
  is_Some (m !! k) ∨ in_current k C.
Proof.
  unfold in_current.
  induction C as [|item C IH]; intros m k; simpl.
  - split; [auto|]. intros [?|(?&?%elem_of_nil&?)]; done.
  - rewrite IH. unfold index_step. split.
    + intros [H|(r&?&?)].
      * destruct (truthy (get item "id")) eqn:Hid; [|auto].
        rewrite lookup_insert in H. case_decide; [|auto].
        right. exists item. split; [left|]. by apply key_of_Some.
      * right. exists r. split; [by right|done].
    + intros [H|(r&[->|?]%elem_of_cons&Hk)].
      * left. destruct (truthy (get item "id")); [|done].
        rewrite lookup_insert. case_decide; [by eexists|done].
      * apply key_of_Some in Hk as [-> <-]. left.
        rewrite lookup_insert_eq. by eexists.
      * right. by exists r.
Qed.

Lemma index_by_id_in k C : in_snapshot k (index_by_id C) ↔ in_current k C.
Proof.
  unfold in_snapshot, index_by_id. rewrite index_is_Some, lookup_empty.
  split; [intros [[? ?]|?]; done|auto].
Qed.

Lemma index_by_id_keyed C : keyed (index_by_id C).
Proof.
  intros k r [H|[_ H]]%index_lookup; [|done]. by rewrite lookup_empty in H.
Qed.

(** ** Membership in the three sequences *)

Lemma listed_nouveaux now P C k :
  listed k (nouveaux (detectChanges now P C)) ↔
  in_current k C ∧ P !! k = None.
Proof.
  rewrite detectChanges_spec. unfold listed, in_current. simpl. split.
  - intros (e & (item & Hin & He)%list_elem_of_omap & Hk).
    unfold added_of in He. destruct (key_of item) as [k'|] eqn:Hkey; [|done].
    simpl in He. destruct (P !! k') eqn:HP; [done|]. simplify_eq. simpl.
    apply key_of_Some in Hkey as [? <-]. split; [|done].
    exists item. split; [done|]. by apply key_of_Some.
  - intros [(item & Hin & Hkey) HP]. exists (new_entry item). split.
    + apply list_elem_of_omap. exists item. split; [done|].
      unfold added_of. rewrite Hkey. simpl. by rewrite HP.
    + simpl. by apply key_of_Some in Hkey as [_ ?].
Qed.

Lemma elem_of_modifies now P C e :
  e ∈ modifies (detectChanges now P C) ↔
  ∃ item k previous,
    item ∈ C ∧ key_of item = Some k ∧ P !! k = Some previous ∧
    field_modifications previous item ≠ [] ∧
    e = modified_entry previous item (field_modifications previous item).
Proof.
  rewrite detectChanges_spec. simpl. rewrite list_elem_of_omap. split.
  - intros (item & Hin & He). unfold modified_of in He.
    destruct (key_of item) as [k|] eqn:Hkey; [|done]. simpl in He.
    destruct (P !! k) as [previous|] eqn:HP; [|done]. simpl in He.
    destruct (field_modifications previous item) eqn:Hm; [done|].
    simplify_eq. exists item, k, previous. by rewrite Hm.
  - intros (item & k & previous & Hin & Hkey & HP & Hm & ->).
    exists item. split; [done|]. unfold modified_of. rewrite Hkey. simpl.
    rewrite HP. simpl. by destruct (field_modifications previous item).
Qed.

Lemma listed_supprimes now P C k :
  listed k (supprimes (detectChanges now P C)) ↔
  in_snapshot k P ∧ ¬ in_current k C.
Proof.
  rewrite detectChanges_spec. unfold listed. simpl.
  rewrite <- index_by_id_in. unfold in_snapshot. split.
  - intros (e & ([k' r] & Hin & He)%list_elem_of_omap & Hk).
    unfold removed_of in He. simpl in He.
    destruct (index_by_id C !! k') eqn:Hi; [done|]. simplify_eq. simpl.
    apply elem_of_map_to_list in Hin. split; [by eexists|].
    rewrite Hi. by intros [? ?].
  - intros [[r HP] Hi]. exists (removed_entry (k, r)). split; [|done].
    apply list_elem_of_omap. exists (k, r). split.
    + by apply elem_of_map_to_list.
    + unfold removed_of. simpl. destruct (index_by_id C !! k); [|done].
      destruct Hi. by eexists.
Qed.

(** ** Field comparison *)

Lemma compare_fields_spec previous item fields mods :
  foldl (compare_field previous item) mods fields =
  mods ++ omap (modification_of previous item) fields.
Proof.
  revert mods. induction fields as [|f fields IH]; intros mods; simpl.
  - by rewrite app_nil_r.
  - rewrite IH. unfold compare_field, modification_of.
    case_bool_decide; simpl; [|done]. by rewrite <- app_assoc.
Qed.

Lemma elem_of_field_modifications previous item m :
  m ∈ field_modifications previous item ↔
  ∃ field, field ∈ MONITORED_FIELDS ∧
    normalize (get previous field) ≠ normalize (get item field) ∧
    m = {| champ := field; label := label_of field;
           ancienne_valeur := get previous field;
           nouvelle_valeur := get item field |}.
Proof.
  unfold field_modifications. rewrite compare_fields_spec, app_nil_l.
  rewrite list_elem_of_omap. unfold modification_of. split.
  - intros (f & Hf & Hm). case_bool_decide; simplify_eq. eauto.
  - intros (f & Hf & Hne & ->). exists f. split; [done|].
    by rewrite bool_decide_eq_true_2.
Qed.

Lemma omap_nil {A B} (f : A → option B) (l : list A) :
  omap f l = [] ↔ ∀ x, x ∈ l → f x = None.
Proof.
  induction l as [|a l IH]; simpl.
  - split; [|done]. by intros _ x ?%elem_of_nil.
  - destruct (f a) eqn:Hfa; split.
    + done.
    + intros H. specialize (H a (list_elem_of_here _ _)). congruence.
    + intros Hl x [->|?]%elem_of_cons; [done|]. by apply IH.
    + intros H. apply IH. intros x ?. apply H. by right.
Qed.

Lemma field_modifications_nil previous item :
  field_modifications previous item = [] ↔ same_monitored previous item.
Proof.
  unfold field_modifications, same_monitored.
  rewrite compare_fields_spec, app_nil_l, omap_nil.
  unfold modification_of. split; intros H f Hf; specialize (H f Hf).
  - by case_bool_decide as Hn.
  - by rewrite bool_decide_eq_false_2 by (by intros ?).
Qed.

Lemma same_monitored_refl r : same_monitored r r.
Proof. by intros f _. Qed.

Lemma listed_modifies now P C k :
  listed k (modifies (detectChanges now P C)) ↔
  ∃ item previous,
    item ∈ C ∧ key_of item = Some k ∧ P !! k = Some previous ∧
    ¬ same_monitored previous item.
Proof.
  unfold listed. split.
  - intros (e & (item & k' & previous & Hin & Hkey & HP & Hm & ->)%elem_of_modifies & Hk).
    simpl in Hk. pose proof Hkey as [_ Hk']%key_of_Some. simplify_eq.
    exists item, previous. by rewrite <- field_modifications_nil.
  - intros (item & previous & Hin & Hkey & HP & Hm).
    exists (modified_entry previous item (field_modifications previous item)).
    split; [|simpl; by apply key_of_Some in Hkey as [_ ?]].
    apply elem_of_modifies. exists item, k, previous.
    by rewrite field_modifications_nil.
Qed.

(** ** Classification by the diff *)




(** ** Records without an identifier *)

Lemma omap_filter_None {A B} (f : A → option B) (Q : A → Prop)
    `{!∀ x, Decision (Q x)} (l : list A) :
  (∀ x, ¬ Q x → f x = None) → omap f (filter Q l) = omap f l.
Proof.
  intros Hf. induction l as [|a l IH]; [done|].
  rewrite filter_cons. destruct (decide (Q a)) as [|Hn].
  - change (omap f (a :: filter Q l)) with
      (match f a with Some y => y :: omap f (filter Q l)
                    | None => omap f (filter Q l) end).
    by rewrite IH.
  - rewrite IH. change (omap f (a :: l)) with
      (match f a with Some y => y :: omap f l | None => omap f l end).
    by rewrite (Hf a Hn).
Qed.

Lemma key_of_idless item : ¬ has_id item → key_of item = None.
Proof. unfold has_id. rewrite key_of_None. by destruct (truthy _). Qed.

Lemma index_filter_has_id C : ∀ m : snapshot,
  foldl index_step m (filter has_id C) = foldl index_step m C.
Proof.
  induction C as [|item C IH]; intros m; [done|].
  rewrite filter_cons. destruct (decide (has_id item)) as [|Hn]; simpl.
  - apply IH.
  - rewrite IH. f_equal. unfold index_step, has_id in *.
    by destruct (truthy _).
Qed.

Lemma stringify_lookup (s : snapshot) k r :
  stringify s !! k = Some r ↔
  ∃ r', s !! k = Some r' ∧
        r = filter (λ kv : string * value, kv.2 ≠ VUndefined) r'.
Proof.
  unfold stringify. rewrite lookup_fmap, fmap_Some. naive_solver.
Qed.

Lemma stringify_get (r : record) field :
  get (filter (λ kv : string * value, kv.2 ≠ VUndefined) r) field = get r field.
Proof.
  unfold get.
  destruct (r !! field) as [v|] eqn:Hr.
  - destruct (decide (v = VUndefined)) as [->|Hv].
    + rewrite (map_lookup_filter_None_2 _ r field); [done|].
      right. intros v Hv. simpl. intros Hne. congruence.
    + by rewrite (map_lookup_filter_Some_2 _ r field v).
  - rewrite (map_lookup_filter_None_2 _ r field); [done|]. by left.
Qed.

(** C8. A record lacking an identifier contributes nothing: the diff and
    the saved snapshot are what they would be had such records been
    removed from the input; every entry of added and modified is built
    from a current record that has an identifier, every entry of removed
    from the previous snapshot; and every record stored in the index
    returned, and in the file written, by saveCurrentState is a record of
    the input that has an identifier. *)
Theorem idless_records_excluded now (P : snapshot) (C : list record) :
  let c := detectChanges now P C in
  detectChanges now P (filter has_id C) = c
  ∧ saveCurrentState (filter has_id C) = saveCurrentState C
  ∧ (∀ e, e ∈ nouveaux c ∨ e ∈ modifies c →
       etablissement e ∈ C ∧ has_id (etablissement e))
  ∧ (∀ e, e ∈ supprimes c →
       ∃ k, P !! k = Some (etablissement e) ∧ id e = VStr k)
  ∧ (∀ k r, (saveCurrentState C).2 !! k = Some r → r ∈ C ∧ has_id r)
  ∧ (∀ k r, stringify (saveCurrentState C).2 !! k = Some r →
       (saveCurrentState C).1 = Json (stringify (saveCurrentState C).2)
       ∧ has_id r).
Proof.
  intros c. subst c. repeat split.
  - rewrite !detectChanges_spec. unfold index_by_id.
    rewrite index_filter_has_id. f_equal.
    + apply omap_filter_None. intros x Hx. unfold added_of.
      by rewrite key_of_idless.
    + apply omap_filter_None. intros x Hx. unfold modified_of.
      by rewrite key_of_idless.
  - unfold saveCurrentState, index_by_id. by rewrite index_filter_has_id.
  - destruct H as [H|H]; rewrite detectChanges_spec in H; simpl in H;
      apply list_elem_of_omap in H as (item & Hin & He).
    + unfold added_of in He. destruct (key_of item); [|done]. simpl in He.
      destruct (P !! _); by simplify_eq.
    + unfold modified_of in He. destruct (key_of item); [|done]. simpl in He.
      destruct (P !! _) as [previous|]; [|done]. simpl in He.
      destruct (field_modifications previous item); by simplify_eq.
  - destruct H as [H|H]; rewrite detectChanges_spec in H; simpl in H;
      apply list_elem_of_omap in H as (item & Hin & He).
    + unfold added_of in He. destruct (key_of item) eqn:Hk; [|done].
      simpl in He. apply key_of_Some in Hk as [? ?].
      destruct (P !! _); by simplify_eq.
    + unfold modified_of in He. destruct (key_of item) eqn:Hk; [|done].
      simpl in He. apply key_of_Some in Hk as [? ?].
      destruct (P !! _) as [previous|]; [|done]. simpl in He.
      destruct (field_modifications previous item); by simplify_eq.
  - intros e H. rewrite detectChanges_spec in H. simpl in H.
    apply list_elem_of_omap in H as ([k r] & Hin%elem_of_map_to_list & He).
    unfold removed_of in He. simpl in He.
    destruct (index_by_id C !! k); [done|]. simplify_eq. by exists k.
  - simpl in H. by apply index_lookup in H as [H|[? ?]];
      [rewrite lookup_empty in H|].
  - simpl in H. apply index_lookup in H as [H|[? Hk]];
      [by rewrite lookup_empty in H|]. by apply key_of_Some in Hk as [? ?].
  - simpl in H. apply stringify_lookup in H as (r' & H & ->).
    unfold has_id. rewrite stringify_get.
    apply index_lookup in H as [H|[? Hk]];
      [by rewrite lookup_empty in H|]. by apply key_of_Some in Hk as [? ?].
Qed.

Lemma idless_records_excluded_witness :
  detectChanges "now" sample_previous (filter has_id sample_current)
  = detectChanges "now" sample_previous sample_current
  ∧ (∀ k r, (saveCurrentState sample_current).2 !! k = Some r →
       r ∈ sample_current ∧ has_id r).
Proof.
  destruct (idless_records_excluded "now" sample_previous sample_current)
    as (Hdiff & _ & _ & _ & Hsaved & _).
  split; [exact Hdiff | exact Hsaved].
Defined.

(** ** Idempotence *)

Lemma in_current_values (P : snapshot) k r :
  keyed P → P !! k = Some r → in_current k (values P).
Proof.
  intros HP Hk. exists r. split; [|by apply HP].
  unfold values. apply list_elem_of_fmap. exists (k, r). split; [done|].
  by apply elem_of_map_to_list.
Qed.

Lemma elem_of_values (P : snapshot) r :
  r ∈ values P ↔ ∃ k, P !! k = Some r.
Proof.
  unfold values. rewrite list_elem_of_fmap. split.
  - intros ([k r'] & -> & Hin%elem_of_map_to_list). by exists k.
  - intros [k Hk]. exists (k, r). split; [done|]. by apply elem_of_map_to_list.
Qed.




(** ** Normalization *)

Lemma scan_step_same P st item k previous :
  key_of item = Some k → P !! k = Some previous →
  same_monitored previous item →
  sc_modifies (scan_step P st item) = sc_modifies st
  ∧ sc_nouveaux (scan_step P st item) = sc_nouveaux st.
Proof.
  intros Hk HP Hsame. rewrite scan_step_spec. simpl.
  unfold added_of, modified_of. rewrite Hk. simpl. rewrite HP. simpl.
  apply field_modifications_nil in Hsame. rewrite Hsame. simpl.
  by rewrite !app_nil_r.
Qed.



(** ** Scope filter *)

Lemma filterItem_retained tokens e :
  filterItem tokens e = true ↔ retained tokens e.
Proof.
  unfold filterItem, retained, in_scope_now, in_scope_before, includes, ancien.
  destruct (decide (ministere e ∈ tokens)) as [Hm|Hm].
  { rewrite bool_decide_eq_true_2 by done. split; auto. }
  rewrite bool_decide_eq_false_2 by done.
  destruct (decide (region e ∈ tokens)) as [Hr|Hr].
  { rewrite bool_decide_eq_true_2 by done. split; auto. }
  rewrite bool_decide_eq_false_2 by done.
  destruct (ancienMinistere e) as [a|]; simpl.
  - destruct (truthy a) eqn:Ha; simpl.
    + destruct (decide (a ∈ tokens)) as [Hin|Hin].
      * rewrite bool_decide_eq_true_2 by done. split; auto.
      * rewrite bool_decide_eq_false_2 by done. split; [done|].
        intros [[?|?]|[? ?]]; done.
    + split; [done|]. intros [[?|?]|[? ?]]; done.
  - split; [done|]. intros [[?|?]|?]; done.
Qed.

Lemma filter_filterItem tokens (l : list entry) :
  filter (λ e, filterItem tokens e) l = filter (retained tokens) l.
Proof.
  apply list_filter_iff. intros e. rewrite <- filterItem_retained.
  by destruct (filterItem tokens e).
Qed.




(** ** The scope filter over the store *)

Module StoreFacts.
Import Store.

Lemma alloc_spec (h h' : store) cell l :
  alloc h cell = (h', l) →
  h !! l = None ∧ h' = <[l := cell]> h ∧ h ⊆ h'.
Proof.
  unfold alloc. intros [= <- <-].
  assert (h !! fresh (dom h) = None) as Hfresh.
  { apply not_elem_of_dom. apply is_fresh. }
  split_and!; [done..|]. by apply insert_subseteq.
Qed.

Lemma select_sublist (h : store) tokens items : ∀ kept,
  select h tokens items = Some kept → kept `sublist_of` items.
Proof.
  induction items as [|l items IH]; intros kept; simpl.
  - intros [= <-]. constructor.
  - destruct (keep h tokens l) as [b|]; [|done]. simpl.
    destruct (select h tokens items) as [rest|]; [|done]. simpl.
    intros [= <-]. destruct b.
    + apply sublist_skip. by apply IH.
    + apply sublist_cons. by apply IH.
Qed.

(** The array kept is the array of the entries [filterItem] accepts. *)
Lemma select_read (h : store) tokens items : ∀ kept,
  select h tokens items = Some kept →
  ∃ es, mapM (read_entry h) items = Some es
        ∧ mapM (read_entry h) kept
          = Some (filter (λ e, filterItem tokens e) es).
Proof.
  setoid_rewrite mapM_Some.
  induction items as [|l items IH]; intros kept; simpl.
  - intros [= <-]. exists []. split; constructor.
  - unfold keep. destruct (h !! l) as [[e| | |]|] eqn:Hl; try done. simpl.
    destruct (select h tokens items) as [rest|]; [|done]. simpl.
    intros [= <-]. destruct (IH rest eq_refl) as (es & Hes & Hkept).
    assert (read_entry h l = Some e) as He by (unfold read_entry; by rewrite Hl).
    exists (e :: es). split; [by constructor|].
    rewrite filter_cons. destruct (filterItem tokens e); simpl.
    + by constructor.
    + done.
Qed.

Lemma select_total (h : store) tokens items es :
  mapM (read_entry h) items = Some es →
  ∃ kept, select h tokens items = Some kept.
Proof.
  rewrite mapM_Some. induction 1 as [|l e items es He _ [kept IH]]; simpl.
  - by exists [].
  - unfold keep. unfold read_entry in He.
    destruct (h !! l) as [[e'| | |]|]; try done. simpl. rewrite IH. simpl.
    by eexists.
Qed.

Lemma read_entry_weaken (h h1 : store) l e :
  h ⊆ h1 → read_entry h l = Some e → read_entry h1 l = Some e.
Proof.
  unfold read_entry. intros Hsub.
  destruct (h !! l) as [cell|] eqn:Hl; [|done].
  by rewrite (lookup_weaken _ _ _ _ Hl Hsub).
Qed.

Lemma mapM_read_weaken (h h1 : store) ls es :
  h ⊆ h1 → mapM (read_entry h) ls = Some es →
  mapM (read_entry h1) ls = Some es.
Proof.
  rewrite !mapM_Some. intros Hsub H.
  eapply Forall2_impl; [done|]. intros l e. by apply read_entry_weaken.
Qed.

Lemma read_array_weaken (h h1 : store) arr es :
  h ⊆ h1 → read_array h arr = Some es → read_array h1 arr = Some es.
Proof.
  unfold read_array. intros Hsub.
  destruct (h !! arr) as [cell|] eqn:Harr; [|done].
  rewrite (lookup_weaken _ _ _ _ Harr Hsub).
  destruct cell; try done. by apply mapM_read_weaken.
Qed.

(** [arr.filter(filterItem)] on an array of entries: the store grows by
    one array, which lists, in order, the entries accepted. *)
Lemma filter_array_spec (h : store) tokens arr es :
  read_array h arr = Some es →
  ∃ h1 arr' items kept,
    filter_array h tokens arr = Some (h1, arr')
    ∧ h ⊆ h1 ∧ h !! arr' = None
    ∧ h !! arr = Some (CArray items) ∧ h1 !! arr' = Some (CArray kept)
    ∧ kept `sublist_of` items
    ∧ read_array h1 arr' = Some (filter (λ e, filterItem tokens e) es).
Proof.
  unfold read_array, filter_array.
  destruct (h !! arr) as [[|items| |]|] eqn:Harr; try done. intros Hes.
  destruct (select_total h tokens items es Hes) as [kept Hsel].
  rewrite Hsel. simpl.
  destruct (alloc h (CArray kept)) as [h1 arr'] eqn:Ha.
  apply alloc_spec in Ha as (Hnew & -> & Hsub).
  exists (<[arr' := CArray kept]> h), arr', items, kept.
  rewrite lookup_insert_eq. split_and!; try done.
  - by eapply select_sublist.
  - destruct (select_read h tokens items kept Hsel) as (es' & Hes' & Hkept).
    simplify_eq. by apply (mapM_read_weaken h).
Qed.

End StoreFacts.

(** C10. Without "ALL" among the tokens, filtering a well-formed change
    set object returns a newly allocated change set whose three arrays are
    newly allocated and list, in order, a subsequence of the entry objects
    of the corresponding input array; every object that existed before the
    call (the input change set, its arrays, the entries, the token list) is
    afterwards what it was; the timestamp is the input's; and what the new
    object holds is the result computed by the function on values. *)
Theorem scope_filter_frame (h : Store.store) (c p : Store.loc)
    (ch : changes) (tokens : list value) :
  Store.read_changes h c = Some ch →
  h !! p = Some (Store.CTokens tokens) →
  VStr "ALL" ∉ tokens →
  ∃ h' c',
    Store.filterChangesForSubscriber h c p = Some (h', c')
    ∧ (∀ l cell, h !! l = Some cell → h' !! l = Some cell)
    ∧ Store.read_changes h' c = Some ch
    ∧ h' !! p = Some (Store.CTokens tokens)
    ∧ h !! c' = None
    ∧ Store.read_changes h' c' = Some (filterChangesForSubscriber ch tokens)
    ∧ timestamp (filterChangesForSubscriber ch tokens) = timestamp ch
    ∧ ∃ n m s n' m' s' ts,
        h !! c = Some (Store.CChanges n m s ts)
        ∧ h' !! c' = Some (Store.CChanges n' m' s' ts)
        ∧ h !! n' = None ∧ h !! m' = None ∧ h !! s' = None
        ∧ ∃ n_in m_in s_in n_out m_out s_out,
            h !! n = Some (Store.CArray n_in)
            ∧ h !! m = Some (Store.CArray m_in)
            ∧ h !! s = Some (Store.CArray s_in)
            ∧ h' !! n' = Some (Store.CArray n_out)
            ∧ h' !! m' = Some (Store.CArray m_out)
            ∧ h' !! s' = Some (Store.CArray s_out)
            ∧ n_out `sublist_of` n_in
            ∧ m_out `sublist_of` m_in
            ∧ s_out `sublist_of` s_in.
Proof.
  intros Hread Hp HALL. pose proof Hread as Hread0.
  unfold Store.read_changes in Hread.
  destruct (h !! c) as [[| | |n m s ts]|] eqn:Hc; try done.
  destruct (Store.read_array h n) as [en|] eqn:Hn; [|done].
  destruct (Store.read_array h m) as [em|] eqn:Hm; [|done].
  destruct (Store.read_array h s) as [es|] eqn:Hs; [|done].
  simpl in Hread. injection Hread as <-.
  destruct (StoreFacts.filter_array_spec h tokens n en Hn)
    as (h1 & n' & n_in & n_out & Hf1 & Hsub1 & Hn'new & Hnin & Hnout & Hnsub & Hnread).
  pose proof (StoreFacts.read_array_weaken _ _ _ _ Hsub1 Hm) as Hm1.
  destruct (StoreFacts.filter_array_spec h1 tokens m em Hm1)
    as (h2 & m' & m_in & m_out & Hf2 & Hsub2 & Hm'new & Hmin & Hmout & Hmsub & Hmread).
  pose proof (StoreFacts.read_array_weaken _ _ _ _ (transitivity Hsub1 Hsub2) Hs) as Hs2.
  destruct (StoreFacts.filter_array_spec h2 tokens s es Hs2)
    as (h3 & s' & s_in & s_out & Hf3 & Hsub3 & Hs'new & Hsin & Hsout & Hssub & Hsread).
  destruct (Store.alloc h3 (Store.CChanges n' m' s' ts)) as [h' c'] eqn:Ha.
  pose proof Ha as Ha'. apply StoreFacts.alloc_spec in Ha' as (Hc'new & -> & Hsub4).
  assert (h ⊆ h3) as Hsub03 by (by etrans; [|etrans]).
  assert (h ⊆ <[c' := Store.CChanges n' m' s' ts]> h3) as Hsub by (by etrans).
  assert (∀ (a b : Store.store) l, a ⊆ b → b !! l = None → a !! l = None)
    as Hnone.
  { intros a b l Hab Hb. destruct (a !! l) eqn:Hal; [|done].
    by rewrite (lookup_weaken _ _ _ _ Hal Hab) in Hb. }
  exists (<[c' := Store.CChanges n' m' s' ts]> h3), c'. split_and!.
  - unfold Store.filterChangesForSubscriber. rewrite Hp. unfold includes.
    rewrite bool_decide_eq_false_2 by done. rewrite Hc, Hf1. simpl.
    rewrite Hf2. simpl. rewrite Hf3. simpl. by rewrite Ha.
  - intros l cell Hl. by eapply lookup_weaken.
  - unfold Store.read_changes.
    rewrite (lookup_weaken _ _ _ _ Hc Hsub).
    rewrite (StoreFacts.read_array_weaken _ _ _ _ Hsub Hn).
    rewrite (StoreFacts.read_array_weaken _ _ _ _ Hsub Hm).
    by rewrite (StoreFacts.read_array_weaken _ _ _ _ Hsub Hs).
  - by eapply lookup_weaken.
  - exact (Hnone _ _ _ Hsub03 Hc'new).
  - unfold Store.read_changes. rewrite lookup_insert_eq.
    rewrite (StoreFacts.read_array_weaken h1 _ n' _
               (transitivity Hsub2 (transitivity Hsub3 Hsub4)) Hnread).
    rewrite (StoreFacts.read_array_weaken h2 _ m' _
               (transitivity Hsub3 Hsub4) Hmread).
    rewrite (StoreFacts.read_array_weaken h3 _ s' _ Hsub4 Hsread). simpl.
    unfold filterChangesForSubscriber, includes.
    by rewrite bool_decide_eq_false_2 by done.
  - unfold filterChangesForSubscriber, includes.
    by rewrite bool_decide_eq_false_2 by done.
  - exists n, m, s, n', m', s', ts. split_and!.
    + done.
    + by rewrite lookup_insert_eq.
    + done.
    + exact (Hnone _ _ _ Hsub1 Hm'new).
    + exact (Hnone _ _ _ (transitivity Hsub1 Hsub2) Hs'new).
    + exists n_in, m_in, s_in, n_out, m_out, s_out. split_and!; try done.
      * destruct (h !! m) as [cell|] eqn:Hhm.
        -- by rewrite (lookup_weaken _ _ _ _ Hhm Hsub1) in Hmin.
        -- unfold Store.read_array in Hm. by rewrite Hhm in Hm.
      * destruct (h !! s) as [cell|] eqn:Hhs.
        -- by rewrite (lookup_weaken _ _ _ _ Hhs (transitivity Hsub1 Hsub2)) in Hsin.
        -- unfold Store.read_array in Hs. by rewrite Hhs in Hs.
      * eapply lookup_weaken; [done|]. by etrans; [|etrans].
      * eapply lookup_weaken; [done|]. by etrans.
      * by eapply lookup_weaken.
Qed.

Lemma scope_filter_frame_witness :
  ∃ h' c',
    Store.filterChangesForSubscriber sample_store 6 0 = Some (h', c')
    ∧ (∀ l cell, sample_store !! l = Some cell → h' !! l = Some cell)
    ∧ Store.read_changes h' 6 = Some sample_changes
    ∧ h' !! 0 = Some (Store.CTokens [VStr "Justice"])
    ∧ sample_store !! c' = None
    ∧ Store.read_changes h' c'
      = Some (filterChangesForSubscriber sample_changes [VStr "Justice"]).
Proof.
  destruct (scope_filter_frame sample_store 6 0 sample_changes [VStr "Justice"])
    as (h' & c' & H1 & H2 & H3 & H4 & H5 & H6 & _).
  - vm_compute. reflexivity.
  - vm_compute. reflexivity.
  - not_listed.
  - by exists h', c'.
Defined.

(** ** The fetch loop *)

Lemma fetch_loop_passes api k : ∀ s0 s fuel,
  passes api k s0 = Some s →
  fetch_loop api (k + fuel) s0 = fetch_loop api fuel s.
Proof.
  induction k as [|k IH]; intros s0 s fuel; simpl.
  - by intros [= ->].
  - destruct (hasMore s0); [|done]. simpl.
    destruct (iteration api s0) as [s1| |]; try done. apply IH.
Qed.

Lemma fetch_loop_more_fuel api fuel : ∀ s r k,
  fetch_loop api fuel s = Some r → fetch_loop api (fuel + k) s = Some r.
Proof.
  induction fuel as [|fuel IH]; intros s r k; simpl.
  - destruct (hasMore s) eqn:Hs; simpl; [done|].
    intros <-. destruct k; simpl; by rewrite Hs.
  - destruct (hasMore s); simpl; [|done].
    destruct (iteration api s); auto.
Qed.

(** One pass whose first attempt succeeds. *)
Lemma iteration_ok api s status b :
  api (requests s) (currentPage s) = Response true status (Some b) →
  first_attempt api s = inr (iteration api s)
  ∧ ∃ s' warn,
      (iteration api s = Continue s' ∧ currentPage s' ≤ MAX_PAGES ∧ warn = []
       ∨ iteration api s = BreakCeiling s' ∧ MAX_PAGES < currentPage s'
         ∧ warn = [EWarnCeiling])
      ∧ allData s' = allData s ++ default [] (data b)
      ∧ currentPage s' = S (currentPage s)
      ∧ total s' = default 0%Z (meta_total b)
      ∧ hasMore s' =
          bool_decide (Z.of_nat (length (allData s')) < total s')%Z
          && bool_decide (0 < length (default [] (data b)))
      ∧ requests s' = S (requests s)
      ∧ ∃ progress pause,
          trace s' = trace s ++ [EFetch (currentPage s)] ++ progress ++ pause ++ warn
          ∧ (progress = [] ∨ ∃ a b c, progress = [EProgress a b c])
          ∧ (pause = [] ∨ pause = [ESleep 50]).
Proof.
  intros Hapi. unfold iteration, first_attempt, fetch. rewrite Hapi. simpl.
  case_bool_decide as Hmax; simpl; (split; [done|]);
    eexists; eexists; (split; [first [left; split_and!; [done|simpl; lia|done]
                             | right; split_and!; [done|simpl; lia|done] ]|]);
    simpl; split_and!; try done;
    eexists; eexists; (split; [done|]); split.
  all: try (destruct (_ || _); [right; by do 3 eexists | by left]).
  all: destruct (_ && _); [by right | by left].
Qed.

(** One pass whose first attempt throws: the handler runs. *)
Lemma iteration_failed api s :
  fails (api (requests s) (currentPage s)) → iteration api s = retry api s.
Proof.
  unfold iteration, first_attempt, fetch.
  destruct (api (requests s) (currentPage s)) as [|[] status [b|]]; by simpl.
Qed.

Lemma retry_gives_up api s :
  fails (api (S (requests s)) (currentPage s)) →
  ∃ log,
    retry api s =
      BreakFailure
        {| allData := allData s; currentPage := currentPage s;
           hasMore := hasMore s; total := total s;
           requests := S (S (requests s));
           trace := (trace s ++ [EFetch (currentPage s); EError (currentPage s);
                                 ESleep 2000; EFetch (currentPage s)]) ++ log |}
    ∧ (log = [] ∨ log = [ERetryFailed (currentPage s)]).
Proof.
  unfold retry, fetch.
  destruct (api (S (requests s)) (currentPage s)) as [|[] status [b|]];
    simpl; intros Hf; try done.
  - exists [ERetryFailed (currentPage s)]. auto.
  - exists [ERetryFailed (currentPage s)]. auto.
  - exists []. auto.
  - exists []. auto.
Qed.

Lemma retry_succeeds api s status b :
  api (S (requests s)) (currentPage s) = Response true status (Some b) →
  retry api s =
    Continue
      {| allData := allData s ++ default [] (data b);
         currentPage := S (currentPage s);
         hasMore := hasMore s; total := total s;
         requests := S (S (requests s));
         trace := trace s ++ [EFetch (currentPage s); EError (currentPage s);
                              ESleep 2000; EFetch (currentPage s)] |}.
Proof. unfold retry, fetch. by intros ->. Qed.

(** *** A server on which the loop does not end *)

Lemma throttled_pass s :
  hasMore s = true → Nat.even (requests s) = true →
  ∃ s', iteration throttled s = Continue s'
        ∧ hasMore s' = true ∧ Nat.even (requests s') = true
        ∧ currentPage s' = S (currentPage s)
        ∧ (EWarnCeiling ∈ trace s' → EWarnCeiling ∈ trace s).
Proof.
  intros Hmore Heven.
  assert (fails (throttled (requests s) (currentPage s))) as Hf.
  { unfold throttled. by rewrite Heven. }
  rewrite (iteration_failed _ _ Hf).
  assert (Nat.even (S (requests s)) = false) as Hodd.
  { rewrite Nat.even_succ, <- Nat.negb_even. by rewrite Heven. }
  eexists. split.
  - eapply retry_succeeds. unfold throttled. by rewrite Hodd.
  - simpl. split_and!; [done|done|done|].
    rewrite elem_of_app. intros [?|Hin]; [done|]. revert Hin. not_listed.
Qed.

Lemma throttled_passes k : ∀ s,
  hasMore s = true → Nat.even (requests s) = true →
  ∃ s', passes throttled k s = Some s'
        ∧ hasMore s' = true ∧ Nat.even (requests s') = true
        ∧ currentPage s' = k + currentPage s
        ∧ (EWarnCeiling ∈ trace s' → EWarnCeiling ∈ trace s).
Proof.
  induction k as [|k IH]; intros s Hmore Heven; simpl.
  - by exists s.
  - rewrite Hmore.
    destruct (throttled_pass s Hmore Heven) as (s1 & -> & Hm1 & He1 & Hp1 & Hw1).
    destruct (IH s1 Hm1 He1) as (s' & Hs' & ? & ? & Hp & Hw).
    exists s'. split_and!; try done; [lia|auto].
Qed.

(** C4, at a failing input.  Against the server [throttled] the loop is
    still running after any number of passes: fetchAllData returns for no
    amount of fuel, and the page counter passes the 1500-page ceiling
    without the warning being logged. *)
Theorem fetch_loop_runs_forever :
  (∀ fuel, fetchAllData throttled fuel = None)
  ∧ (∀ k, ∃ s, passes throttled k fetch_init = Some s
               ∧ hasMore s = true ∧ currentPage s = S k
               ∧ EWarnCeiling ∉ trace s).
Proof.
  split.
  - intros fuel. unfold fetchAllData.
    destruct (throttled_passes fuel fetch_init eq_refl eq_refl)
      as (s & Hs & Hmore & _).
    pose proof (fetch_loop_passes throttled fuel fetch_init s 0 Hs) as Hl.
    rewrite Nat.add_0_r in Hl. rewrite Hl. simpl. by rewrite Hmore.
  - intros k.
    destruct (throttled_passes k fetch_init eq_refl eq_refl)
      as (s & Hs & Hmore & _ & Hp & Hw).
    exists s. split_and!; try done.
    + simpl in Hp. lia.
    + intros Hin. apply Hw in Hin. by apply elem_of_nil in Hin.
Qed.

(** *** Servers on which it does *)

Lemma fetch_loop_terminates api :
  no_retry_succeeds api →
  ∀ fuel s, currentPage s ≤ MAX_PAGES →
    MAX_PAGES + 1 - currentPage s ≤ fuel →
    ∃ why s', fetch_loop api fuel s = Some (why, s')
              ∧ (why = Ceiling →
                   ∃ s0, BreakCeiling s' = iteration api s0
                         ∧ MAX_PAGES < currentPage s'
                         ∧ last (trace s') = Some EWarnCeiling).
Proof.
  intros Hapi. induction fuel as [|fuel IH]; intros s Hpage Hfuel; [lia|].
  simpl. destruct (hasMore s) eqn:Hmore; simpl; [|by eexists _, _].
  destruct (decide (fails (api (requests s) (currentPage s)))) as [Hf|Hok].
  - rewrite (iteration_failed _ _ Hf).
    destruct (retry_gives_up api s (Hapi _ _ Hf)) as (log & -> & _).
    by eexists _, _.
  - destruct (api (requests s) (currentPage s)) as [|[] status [b|]] eqn:Hr;
      try (by destruct Hok).
    destruct (iteration_ok api s status b Hr)
      as (_ & s' & warn & [(Hi & Hle & ->)|(Hi & Hgt & ->)] & _ & Hp & _ & _ & _
          & progress & pause & Htr & _ & _).
    + rewrite Hi. apply IH; lia.
    + rewrite Hi. eexists _, _. split; [done|]. intros _. exists s.
      split_and!; [done|done|]. rewrite Htr, !app_assoc. apply last_snoc.
Qed.

(** On a server none of whose retries succeeds the loop ends within 1500
    passes, whatever totals the server reports; when it ends at the
    ceiling the last thing logged before the summary is the warning. *)
Theorem fetch_terminates api fuel :
  no_retry_succeeds api → MAX_PAGES ≤ fuel →
  ∃ f, fetchAllData api fuel = Some f
       ∧ (exit f = Ceiling → EWarnCeiling ∈ observed f).
Proof.
  intros Hapi Hfuel. unfold fetchAllData.
  destruct (fetch_loop_terminates api Hapi fuel fetch_init)
    as (why & s' & -> & Hc).
  - change (currentPage fetch_init) with 1. unfold MAX_PAGES. lia.
  - change (currentPage fetch_init) with 1. lia.
  - eexists. split; [done|]. simpl. intros Hw.
    destruct (Hc Hw) as (_ & _ & _ & Hlast).
    apply elem_of_app. left. apply last_Some in Hlast as [l' ->].
    apply elem_of_app. right. constructor.
Qed.

Lemma fetch_terminates_witness :
  ∃ f, fetchAllData overstating 1500 = Some f
       ∧ (exit f = Ceiling → EWarnCeiling ∈ observed f).
Proof.
  apply (fetch_terminates overstating 1500).
  - intros n page Hf. by simpl in Hf.
  - unfold MAX_PAGES. lia.
Defined.

Example fetch_overstating :
  fetchAllData overstating 1500 =
  Some {| records := [obj [("id", VNum 1)]]; exit := Exhausted;
          observed := [EFetch 1; ESleep 50; EFetch 2; EProgress 2 1 10;
                       EDone 1 10] |}.
Proof. vm_compute. reflexivity. Qed.

(** *** What a pass does to the accumulated records and to the trace *)

Lemma iteration_extends api s :
  allData s `prefix_of` allData (state_of (iteration api s))
  ∧ ∃ evs, trace (state_of (iteration api s)) = trace s ++ evs
           ∧ Forall fetch_event evs.
Proof.
  destruct (decide (fails (api (requests s) (currentPage s)))) as [Hf|Hok].
  - rewrite (iteration_failed _ _ Hf).
    destruct (decide (fails (api (S (requests s)) (currentPage s)))) as [Hf2|Hok2].
    + destruct (retry_gives_up api s Hf2) as (log & -> & Hlog). simpl. split.
      * done.
      * eexists. split; [by rewrite <- app_assoc|].
        destruct Hlog as [-> | ->]; repeat constructor; done.
    + destruct (api (S (requests s)) (currentPage s)) as [|[] status [b|]] eqn:Hr;
        try (by destruct Hok2).
      rewrite (retry_succeeds api s status b Hr). simpl. split.
      * by apply prefix_app_r.
      * eexists. split; [done|]. repeat constructor; done.
  - destruct (api (requests s) (currentPage s)) as [|[] status [b|]] eqn:Hr;
      try (by destruct Hok).
    destruct (iteration_ok api s status b Hr)
      as (_ & s' & warn & Hi & Hd & _ & _ & _ & _ & progress & pause & Htr & Hpr & Hpa).
    assert (state_of (iteration api s) = s') as ->.
    { by destruct Hi as [(-> & _)|(-> & _)]. }
    split.
    + rewrite Hd. by apply prefix_app_r.
    + eexists. split; [done|].
      assert (warn = [] ∨ warn = [EWarnCeiling]) as Hw.
      { destruct Hi as [(_ & _ & ->)|(_ & _ & ->)]; auto. }
      destruct Hpr as [-> | (? & ? & ? & ->)], Hpa as [-> | ->], Hw as [-> | ->];
        repeat constructor; done.
Qed.

Lemma fetch_loop_extends api fuel : ∀ s why s',
  fetch_loop api fuel s = Some (why, s') →
  allData s `prefix_of` allData s'
  ∧ ∃ evs, trace s' = trace s ++ evs ∧ Forall fetch_event evs.
Proof.
  assert (∀ s, allData s `prefix_of` allData s
               ∧ ∃ evs, trace s = trace s ++ evs ∧ Forall fetch_event evs)
    as Hrefl.
  { intros s. split; [done|]. exists []. by rewrite app_nil_r. }
  induction fuel as [|fuel IH]; intros s why s'; simpl.
  - destruct (hasMore s); simpl; [done|]. intros [= <- <-]. apply Hrefl.
  - destruct (hasMore s); simpl; [|intros [= <- <-]; apply Hrefl].
    pose proof (iteration_extends api s) as (Hpre & evs & Htr & Hevs).
    destruct (iteration api s) as [s1|s1|s1]; simpl in *.
    + intros (Hpre' & evs' & Htr' & Hevs')%IH. split; [by etrans|].
      exists (evs ++ evs'). rewrite Htr', Htr, app_assoc. split; [done|].
      by apply Forall_app.
    + intros [= <- <-]. split; [done|]. by exists evs.
    + intros [= <- <-]. split; [done|]. by exists evs.
Qed.

Lemma passes_extends api k : ∀ s0 s,
  passes api k s0 = Some s → allData s0 `prefix_of` allData s.
Proof.
  induction k as [|k IH]; intros s0 s; simpl.
  - by intros [= ->].
  - destruct (hasMore s0); [|done].
    pose proof (iteration_extends api s0) as [Hpre _].
    destruct (iteration api s0) as [s1| |]; try done. simpl in Hpre.
    intros ?%IH. by etrans.
Qed.

(** C5. When the request for a page fails, the handler waits 2000 ms and
    requests the same page once more, so that two requests in all have
    been made for it.  If that one fails too, the loop is left and
    fetchAllData returns the records accumulated before the failing page;
    if it succeeds, its records are appended and the next page is due.
    The exception a failing request raises in the first attempt is
    handled by [iteration] (whose result is a [pass], never an exception),
    and the records accumulated so far are a prefix of what any later
    state or the final result holds. *)
Theorem retry_once_then_abort (api : API) :
  (∀ k s, passes api k fetch_init = Some s →
     hasMore s = true →
     fails (api (requests s) (currentPage s)) →
     fails (api (S (requests s)) (currentPage s)) →
     ∀ fuel, ∃ f log,
       fetchAllData api (k + S fuel) = Some f
       ∧ records f = allData s
       ∧ exit f = Aborted
       ∧ observed f =
           trace s ++ [EFetch (currentPage s); EError (currentPage s);
                       ESleep 2000; EFetch (currentPage s)]
                   ++ log ++ [EDone (length (allData s)) (total s)]
       ∧ (log = [] ∨ log = [ERetryFailed (currentPage s)]))
  ∧ (∀ s status b,
       fails (api (requests s) (currentPage s)) →
       api (S (requests s)) (currentPage s) = Response true status (Some b) →
       ∃ s', iteration api s = Continue s'
             ∧ allData s' = allData s ++ default [] (data b)
             ∧ currentPage s' = S (currentPage s)
             ∧ requests s' = 2 + requests s
             ∧ trace s' =
                 trace s ++ [EFetch (currentPage s); EError (currentPage s);
                             ESleep 2000; EFetch (currentPage s)])
  ∧ (∀ k s0 s, passes api k s0 = Some s → allData s0 `prefix_of` allData s)
  ∧ (∀ fuel s why s', fetch_loop api fuel s = Some (why, s') →
       allData s `prefix_of` allData s')
  ∧ (∀ s, fails (api (requests s) (currentPage s)) →
       (∃ e, first_attempt api s = inl e) ∧ iteration api s = retry api s).
Proof.
  split_and!; [..|intros s Hf; split; [|by apply iteration_failed];
                  unfold first_attempt, fetch;
                  destruct (api (requests s) (currentPage s)) as [|[] ? [?|]];
                  simpl in *; by eauto].
  - intros k s Hk Hmore Hf1 Hf2 fuel. unfold fetchAllData.
    rewrite (fetch_loop_passes api k fetch_init s (S fuel) Hk). simpl.
    rewrite Hmore. simpl. rewrite (iteration_failed _ _ Hf1).
    destruct (retry_gives_up api s Hf2) as (log & -> & Hlog).
    eexists _, log. simpl. split_and!; try done.
    by rewrite <- !app_assoc.
  - intros s status b Hf Hr. rewrite (iteration_failed _ _ Hf).
    rewrite (retry_succeeds api s status b Hr). by eexists.
  - intros k s0 s. apply passes_extends.
  - intros fuel s why s' H. by apply fetch_loop_extends in H as [? _].
Qed.

Lemma retry_once_then_abort_witness :
  ∃ f, fetchAllData vanishing 2 = Some f
       ∧ records f = [obj [("id", VNum 1); ("name", VStr "A")]]
       ∧ exit f = Aborted
       ∧ observed f = [EFetch 1; ESleep 50; EFetch 2; EError 2; ESleep 2000;
                       EFetch 2; ERetryFailed 2; EDone 1 2].
Proof.
  destruct (retry_once_then_abort vanishing) as (H & _).
  destruct (H 1 _ eq_refl eq_refl I I 0) as (f & log & Hf & Hrec & Hexit & Hobs & Hlog).
  exists f. split; [exact Hf|].
  vm_compute in Hf. injection Hf as <-. by split_and!.
Defined.

(** ** The run *)

Lemma fetchAllData_events api fuel f :
  fetchAllData api fuel = Some f → Forall fetch_event (observed f).
Proof.
  unfold fetchAllData.
  destruct (fetch_loop api fuel fetch_init) as [[why s]|] eqn:Hl; [|done].
  intros [= <-]. simpl.
  apply fetch_loop_extends in Hl as (_ & evs & -> & Hevs). simpl.
  apply Forall_app. split; [done|]. repeat constructor; done.
Qed.




(** * Further properties of the code *)

(** ** The index: the last record of an id wins *)

Lemma index_step_lookup (m : snapshot) item k :
  index_step m item !! k =
  if decide (key_of item = Some k) then Some item else m !! k.
Proof.
  unfold index_step, key_of. destruct (truthy (get item "id")).
  - rewrite lookup_insert. case_decide as Hk.
    + rewrite decide_True; [done|]. by rewrite Hk.
    + rewrite decide_False; [done|]. congruence.
  - by rewrite decide_False.
Qed.


(** ** Saving, loading and diffing again *)

Lemma stringify_dom (s : snapshot) k :
  is_Some (stringify s !! k) ↔ is_Some (s !! k).
Proof. unfold stringify. rewrite lookup_fmap. apply fmap_is_Some. Qed.

Lemma same_monitored_stringify (r item : record) :
  same_monitored (filter (λ kv : string * value, kv.2 ≠ VUndefined) r) item
  ↔ same_monitored r item.
Proof.
  unfold same_monitored. split; intros H f Hf; specialize (H f Hf);
    by rewrite stringify_get in *.
Qed.

Lemma diff_against_saved now (C : list record) :
  consistent_ids C →
  detectChanges now (stringify (index_by_id C)) C = no_changes now.
Proof.
  intros HC. rewrite detectChanges_spec. unfold no_changes. f_equal.
  - apply omap_nil. intros item Hin. unfold added_of.
    destruct (key_of item) as [k|] eqn:Hk; [|done]. simpl.
    assert (is_Some (stringify (index_by_id C) !! k)) as [r ->]; [|done].
    apply stringify_dom, index_by_id_in. by exists item.
  - apply omap_nil. intros item Hin. unfold modified_of.
    destruct (key_of item) as [k|] eqn:Hk; [|done]. simpl.
    destruct (stringify (index_by_id C) !! k) as [previous|] eqn:HP; [|done].
    simpl. apply stringify_lookup in HP as (r' & Hr' & ->).
    apply index_lookup in Hr' as [Hr'|[Hin' Hk']];
      [by rewrite lookup_empty in Hr'|].
    assert (same_monitored
              (filter (λ kv : string * value, kv.2 ≠ VUndefined) r') item) as Hs.
    { apply same_monitored_stringify. by eapply HC. }
    apply field_modifications_nil in Hs. by rewrite Hs.
  - apply omap_nil. intros [k r] Hin%elem_of_map_to_list. unfold removed_of.
    simpl. assert (is_Some (index_by_id C !! k)) as [r' ->]; [|done].
    apply stringify_dom. by eexists.
Qed.



(** ** Edge cases of the diff *)

Lemma omap_fmap_filter {A B} (f : A → option B) (g : A → B) (Q : A → Prop)
    `{!∀ x, Decision (Q x)} (l : list A) :
  (∀ x, Q x → f x = Some (g x)) → (∀ x, ¬ Q x → f x = None) →
  omap f l = g <$> filter Q l.
Proof.
  intros HQ HnQ. induction l as [|a l IH]; [done|].
  rewrite filter_cons.
  change (omap f (a :: l)) with
    (match f a with Some y => y :: omap f l | None => omap f l end).
  destruct (decide (Q a)) as [Ha|Ha].
  - by rewrite (HQ a Ha), IH.
  - by rewrite (HnQ a Ha), IH.
Qed.

Lemma filter_all {A} (Q : A → Prop) `{!∀ x, Decision (Q x)} (l : list A) :
  (∀ x, x ∈ l → Q x) → filter Q l = l.
Proof.
  induction l as [|a l IH]; intros Hall; [done|].
  rewrite filter_cons, decide_True by (apply Hall; left).
  rewrite IH; [done|]. intros x ?. apply Hall. by right.
Qed.

Lemma added_closed_form (P : snapshot) (C : list record) :
  omap (added_of P) C = new_entry <$> filter (is_new P) C.
Proof.
  apply omap_fmap_filter; intros r; unfold is_new, added_of;
    destruct (key_of r) as [k|]; simpl; try done.
  - by intros ->.
  - intros Hk. by destruct (P !! k).
Qed.

Lemma removed_closed_form (indexed P : snapshot) :
  omap (removed_of indexed) (map_to_list P)
  = removed_entry <$>
      filter (λ kv : string * record, indexed !! kv.1 = None) (map_to_list P).
Proof.
  apply omap_fmap_filter; intros kv; unfold removed_of.
  - by intros ->.
  - intros Hk. by destruct (indexed !! kv.1).
Qed.



Lemma index_idless (C : list record) :
  (∀ r, r ∈ C → ¬ has_id r) → index_by_id C = ∅.
Proof.
  intros HC. apply map_eq. intros k. rewrite lookup_empty.
  apply eq_None_not_Some. intros (r & Hr & Hk)%index_by_id_in.
  by rewrite (key_of_idless r (HC r Hr)) in Hk.
Qed.

Lemma diff_idless now (P : snapshot) (C : list record) :
  (∀ r, r ∈ C → ¬ has_id r) →
  detectChanges now P C
  = {| nouveaux := []; modifies := [];
       supprimes := removed_entry <$> map_to_list P; timestamp := now |}.
Proof.
  intros HC. rewrite detectChanges_spec. f_equal.
  - apply omap_nil. intros r Hr. unfold added_of.
    by rewrite (key_of_idless r (HC r Hr)).
  - apply omap_nil. intros r Hr. unfold modified_of.
    by rewrite (key_of_idless r (HC r Hr)).
  - rewrite removed_closed_form, (index_idless C HC). f_equal.
    apply filter_all. intros [k r] _. simpl. apply lookup_empty.
Qed.



(** ** The sequences of the diff in closed form *)

Lemma modified_closed_form (P : snapshot) (C : list record) :
  etablissement <$> omap (modified_of P) C = filter (is_changed P) C.
Proof.
  induction C as [|r C IH]; [done|].
  rewrite filter_cons.
  change (omap (modified_of P) (r :: C)) with
    (match modified_of P r with
     | Some y => y :: omap (modified_of P) C
     | None => omap (modified_of P) C
     end).
  destruct (decide (is_changed P r)) as [Hc|Hc];
    unfold is_changed in Hc; unfold modified_of at 1;
    destruct (key_of r) as [k|]; cbn [mbind option_bind]; try done;
    destruct (P !! k) as [previous|]; cbn [mbind option_bind]; try done;
    destruct (field_modifications previous r) as [|m mods] eqn:Hm; try done.
  - by apply field_modifications_nil in Hm.
  - by rewrite fmap_cons, IH.
  - destruct Hc. rewrite <- field_modifications_nil. by rewrite Hm.
Qed.

Lemma classification_cases (P : snapshot) (r : record) :
  (¬ has_id r ∧ ¬ is_new P r ∧ ¬ is_changed P r ∧ ¬ is_unchanged P r)
  ∨ (has_id r ∧ is_new P r ∧ ¬ is_changed P r ∧ ¬ is_unchanged P r)
  ∨ (has_id r ∧ ¬ is_new P r ∧ is_changed P r ∧ ¬ is_unchanged P r)
  ∨ (has_id r ∧ ¬ is_new P r ∧ ¬ is_changed P r ∧ is_unchanged P r).
Proof.
  unfold has_id, is_new, is_changed, is_unchanged, key_of.
  destruct (truthy (get r "id")); simpl.
  - right. destruct (P !! ToString (get r "id")) as [previous|].
    + right. destruct (decide (same_monitored previous r)).
      * right. split_and!; try done. tauto.
      * left. split_and!; try done.
    + left. split_and!; try done; tauto.
  - left. split_and!; try done; tauto.
Qed.

Lemma classification_partition (P : snapshot) (C : list record) :
  length (filter has_id C)
  = length (filter (is_new P) C) + length (filter (is_changed P) C)
    + length (filter (is_unchanged P) C).
Proof.
  induction C as [|r C IH]; [done|]. rewrite !filter_cons.
  destruct (classification_cases P r)
    as [(?&?&?&?)|[(?&?&?&?)|[(?&?&?&?)|(?&?&?&?)] ] ];
    repeat (first [rewrite decide_True by done | rewrite decide_False by done]);
    simpl; lia.
Qed.


(** ** What a modified entry carries *)

Lemma champs_closed_form previous item (fields : list string) :
  champ <$> omap (modification_of previous item) fields
  = filter (λ f, normalize (get previous f) ≠ normalize (get item f)) fields.
Proof.
  induction fields as [|f fields IH]; [done|].
  rewrite filter_cons.
  change (omap (modification_of previous item) (f :: fields)) with
    (match modification_of previous item f with
     | Some y => y :: omap (modification_of previous item) fields
     | None => omap (modification_of previous item) fields
     end).
  unfold modification_of at 1. case_bool_decide.
  - rewrite decide_True by done. by rewrite fmap_cons, IH.
  - by rewrite decide_False by (intros ?; congruence).
Qed.

Lemma monitored_fields_labelled :
  Forall (λ f, FIELD_LABELS !! f = Some (label_of f)) MONITORED_FIELDS
  ∧ NoDup MONITORED_FIELDS ∧ length MONITORED_FIELDS = 14.
Proof.
  split_and!; [| |done].
  - refine (bool_decide_unpack _ _). vm_compute. exact I.
  - refine (bool_decide_unpack _ _). vm_compute. exact I.
Qed.



(** ** The removed sequence *)


(** ** Swapping the two sides of the diff *)

Lemma in_current_values_iff (P : snapshot) k :
  keyed P → in_current k (values P) ↔ in_snapshot k P.
Proof.
  intros HP. split.
  - intros (r & [k' Hk']%elem_of_values & Hk).
    rewrite (HP _ _ Hk') in Hk. injection Hk as ->. by exists r.
  - intros [r Hr]. by eapply in_current_values.
Qed.



(** ** Algebra of the scope filter *)

Lemma filterChanges_closed_form (c : changes) (tokens : list value) :
  VStr "ALL" ∉ tokens →
  filterChangesForSubscriber c tokens
  = {| nouveaux := filter (retained tokens) (nouveaux c);
       modifies := filter (retained tokens) (modifies c);
       supprimes := filter (retained tokens) (supprimes c);
       timestamp := timestamp c |}.
Proof.
  intros HALL. unfold filterChangesForSubscriber, includes.
  rewrite bool_decide_eq_false_2 by done. by rewrite !filter_filterItem.
Qed.

Lemma filterChanges_ALL (c : changes) (tokens : list value) :
  VStr "ALL" ∈ tokens → filterChangesForSubscriber c tokens = c.
Proof.
  intros HALL. unfold filterChangesForSubscriber, includes.
  by rewrite bool_decide_eq_true_2.
Qed.

Lemma filter_filter_comm {A} (Q1 Q2 : A → Prop)
    `{!∀ x, Decision (Q1 x)} `{!∀ x, Decision (Q2 x)} (l : list A) :
  filter Q1 (filter Q2 l) = filter Q2 (filter Q1 l).
Proof.
  rewrite !list_filter_filter. apply list_filter_iff. intros x. tauto.
Qed.

Lemma filter_idemp {A} (Q : A → Prop) `{!∀ x, Decision (Q x)} (l : list A) :
  filter Q (filter Q l) = filter Q l.
Proof.
  rewrite list_filter_filter. apply list_filter_iff. intros x. tauto.
Qed.

(** X11. Filtering twice with the same scope changes nothing more, and
    filtering by two scopes gives the same change set in either order,
    whether or not a scope contains "ALL". *)
Theorem scope_filter_algebra (c : changes) (t1 t2 : list value) :
  filterChangesForSubscriber (filterChangesForSubscriber c t1) t1
  = filterChangesForSubscriber c t1
  ∧ filterChangesForSubscriber (filterChangesForSubscriber c t1) t2
    = filterChangesForSubscriber (filterChangesForSubscriber c t2) t1.
Proof.
  destruct (decide (VStr "ALL" ∈ t1)) as [H1|H1],
           (decide (VStr "ALL" ∈ t2)) as [H2|H2];
    rewrite ?(filterChanges_ALL _ t1 H1), ?(filterChanges_ALL _ t2 H2),
            ?(filterChanges_closed_form _ t1 H1),
            ?(filterChanges_closed_form _ t2 H2); split; try done; simpl.
  - by rewrite !filter_idemp.
  - by rewrite !filter_idemp.
  - f_equal; apply filter_filter_comm.
Qed.

Lemma retained_mono (t1 t2 : list value) e :
  t1 ⊆ t2 → retained t1 e → retained t2 e.
Proof.
  intros Hsub. unfold retained, in_scope_now, in_scope_before.
  destruct (ancienMinistere e); intros [[?|?]|H]; auto;
    try (right; destruct H; split; auto).
Qed.

Lemma filter_sublist_mono {A} (Q1 Q2 : A → Prop)
    `{!∀ x, Decision (Q1 x)} `{!∀ x, Decision (Q2 x)} (l : list A) :
  (∀ x, Q1 x → Q2 x) → filter Q1 l `sublist_of` filter Q2 l.
Proof.
  intros HQ. induction l as [|a l IH]; [done|]. rewrite !filter_cons.
  destruct (decide (Q1 a)) as [H1|H1].
  - rewrite decide_True by auto. by apply sublist_skip.
  - destruct (decide (Q2 a)); [by apply sublist_cons|done].
Qed.

(** X12. A wider scope never hides what a narrower one shows: if every
    token of one scope is a token of the other, each sequence selected by
    the first is a subsequence of the one selected by the second.  The
    empty scope selects nothing, and no scope selects more entries than
    the change set has. *)
Theorem scope_filter_monotone (c : changes) (t1 t2 : list value) :
  (t1 ⊆ t2 →
     nouveaux (filterChangesForSubscriber c t1)
       `sublist_of` nouveaux (filterChangesForSubscriber c t2)
     ∧ modifies (filterChangesForSubscriber c t1)
         `sublist_of` modifies (filterChangesForSubscriber c t2)
     ∧ supprimes (filterChangesForSubscriber c t1)
         `sublist_of` supprimes (filterChangesForSubscriber c t2))
  ∧ count (filterChangesForSubscriber c []) = 0
  ∧ count (filterChangesForSubscriber c t1) ≤ count c.
Proof.
  split_and!.
  - intros Hsub.
    destruct (decide (VStr "ALL" ∈ t2)) as [H2|H2].
    { rewrite (filterChanges_ALL _ t2 H2).
      destruct (decide (VStr "ALL" ∈ t1)) as [H1|H1].
      - by rewrite (filterChanges_ALL _ t1 H1).
      - rewrite (filterChanges_closed_form _ t1 H1). simpl.
        split_and!; apply sublist_filter. }
    assert (VStr "ALL" ∉ t1) as H1 by (intros ?; apply H2; auto).
    rewrite (filterChanges_closed_form _ t1 H1),
            (filterChanges_closed_form _ t2 H2). simpl.
    split_and!; apply filter_sublist_mono; intros e; by apply retained_mono.
  - rewrite filterChanges_closed_form by apply not_elem_of_nil.
    unfold count. simpl.
    assert (∀ l : list entry, filter (retained []) l = []) as Hnil.
    { intros l. induction l as [|e l IH]; [done|]. rewrite filter_cons.
      rewrite decide_False; [done|].
      unfold retained, in_scope_now, in_scope_before.
      destruct (ancienMinistere e); intros [[?%elem_of_nil|?%elem_of_nil]|H];
        try done. destruct H as [_ ?%elem_of_nil]. done. }
    by rewrite !Hnil.
  - destruct (decide (VStr "ALL" ∈ t1)) as [H1|H1].
    + by rewrite (filterChanges_ALL _ t1 H1).
    + rewrite (filterChanges_closed_form _ t1 H1). unfold count. simpl.
      pose proof (length_filter (retained t1) (nouveaux c)).
      pose proof (length_filter (retained t1) (modifies c)).
      pose proof (length_filter (retained t1) (supprimes c)). lia.
Qed.

Lemma scope_filter_monotone_witness :
  nouveaux (filterChangesForSubscriber sample_changes [VStr "Justice"])
    `sublist_of`
  nouveaux (filterChangesForSubscriber sample_changes [VStr "Culture"; VStr "Justice"]).
Proof.
  apply (scope_filter_monotone sample_changes
           [VStr "Justice"] [VStr "Culture"; VStr "Justice"]).
  intros v Hv. apply elem_of_cons in Hv as [->|Hv]; [|by apply elem_of_nil in Hv].
  repeat constructor.
Defined.

(** ** The fetch against a server that answers every request *)

Lemma pages_upto_S book k :
  pages_upto book (S k) = pages_upto book k ++ page_records book (S k).
Proof.
  unfold pages_upto. rewrite seq_S, fmap_app, concat_app. simpl.
  by rewrite app_nil_r.
Qed.

Lemma iteration_ok_requests api s status b :
  api (requests s) (currentPage s) = Response true status (Some b) →
  filter is_fetch (trace (state_of (iteration api s)))
  = filter is_fetch (trace s) ++ [EFetch (currentPage s)].
Proof.
  intros Hr. destruct (iteration_ok api s status b Hr)
    as (_ & s1 & warn & Hi & _ & _ & _ & _ & _ & progress & pause & Htr & Hpr & Hpa).
  assert (state_of (iteration api s) = s1) as ->.
  { by destruct Hi as [(-> & _)|(-> & _)]. }
  assert (warn = [] ∨ warn = [EWarnCeiling]) as Hw.
  { destruct Hi as [(_ & _ & ->)|(_ & _ & ->)]; auto. }
  rewrite Htr, filter_app. f_equal.
  destruct Hpr as [-> | (? & ? & ? & ->)], Hpa as [-> | ->], Hw as [-> | ->];
    reflexivity.
Qed.

Lemma fetch_loop_serves api book :
  serves api book →
  ∀ fuel s j,
    hasMore s = true → currentPage s = S j → j < MAX_PAGES →
    allData s = pages_upto book j → MAX_PAGES - j ≤ fuel →
    ∃ k why s',
      fetch_loop api fuel s = Some (why, s')
      ∧ j < k ≤ MAX_PAGES
      ∧ allData s' = pages_upto book k
      ∧ length (filter is_fetch (trace s'))
        = length (filter is_fetch (trace s)) + (k - j)
      ∧ (why = Ceiling ↔ k = MAX_PAGES)
      ∧ (∀ i, j < i < k → goes_on book i)
      ∧ (k < MAX_PAGES → ¬ goes_on book k).
Proof.
  intros Hserves.
  induction fuel as [|fuel IH]; intros s j Hmore Hpage Hj Hall Hfuel; [lia|].
  simpl. rewrite Hmore. simpl.
  destruct (Hserves (requests s) (currentPage s)) as [status Hr].
  pose proof (iteration_ok_requests api s status _ Hr) as Hcount.
  destruct (iteration_ok api s status (book (currentPage s)) Hr)
    as (_ & s1 & warn & Hi & Hd & Hp & Ht & Hm & _).
  assert (state_of (iteration api s) = s1) as Hs1.
  { by destruct Hi as [(-> & _)|(-> & _)]. }
  rewrite Hs1 in Hcount.
  assert (length (filter is_fetch (trace s1))
          = length (filter is_fetch (trace s)) + 1) as Hlen.
  { by rewrite Hcount, length_app. }
  assert (allData s1 = pages_upto book (S j)) as Hall1.
  { rewrite Hd, Hall, pages_upto_S. unfold page_records. by rewrite Hpage. }
  assert (hasMore s1 = true ↔ goes_on book (S j)) as Hgo.
  { rewrite Hm, Ht, Hall1. unfold goes_on, page_records. rewrite Hpage.
    by rewrite andb_true_iff, !bool_decide_eq_true. }
  destruct Hi as [(Hi & Hle & _)|(Hi & Hgt & _)]; rewrite Hi.
  - destruct (hasMore s1) eqn:Hmore1.
    + destruct (IH s1 (S j)) as (k & why & s' & Hl & Hk & Ha & Hq & Hc & Hon & Hoff);
        try done; try lia.
      exists k, why, s'. split_and!; try done; try lia.
      intros i Hi'. destruct (decide (i = S j)) as [->|]; [by apply Hgo|].
      apply Hon. lia.
    + exists (S j), Exhausted, s1. split_and!.
      * destruct fuel; simpl; by rewrite Hmore1.
      * lia.
      * lia.
      * done.
      * lia.
      * split; [done|lia].
      * intros i ?. lia.
      * intros _ Hgo'. apply Hgo in Hgo'. congruence.
  - exists (S j), Ceiling, s1. split_and!.
    + done.
    + lia.
    + lia.
    + done.
    + lia.
    + split; [lia|done].
    + intros i ?. lia.
    + lia.
Qed.

(** X13. Against a server that answers every request, fetchAllData
    returns, in order, the records of pages 1 to k, having made exactly k
    requests: k is the first page that is empty or brings the count up to
    the total it reports, and at most 1500.  The loop is left through the
    page-limit warning exactly when k is 1500, even if page 1500 was the
    last one. *)
Theorem fetch_concatenates_pages api (book : nat → body) fuel :
  serves api book → MAX_PAGES ≤ fuel →
  ∃ k f,
    fetchAllData api fuel = Some f
    ∧ 1 ≤ k ≤ MAX_PAGES
    ∧ records f = pages_upto book k
    ∧ length (filter is_fetch (observed f)) = k
    ∧ (exit f = Ceiling ↔ k = MAX_PAGES)
    ∧ (∀ i, 1 ≤ i < k → goes_on book i)
    ∧ (k < MAX_PAGES → ¬ goes_on book k).
Proof.
  intros Hserves Hfuel.
  destruct (fetch_loop_serves api book Hserves fuel fetch_init 0)
    as (k & why & s' & Hl & Hk & Ha & Hq & Hc & Hon & Hoff).
  - done.
  - done.
  - unfold MAX_PAGES. lia.
  - done.
  - rewrite Nat.sub_0_r. exact Hfuel.
  - exists k. eexists. unfold fetchAllData. rewrite Hl.
    split_and!;
      [ done | lia | lia | done
      | simpl; rewrite filter_app, length_app, Hq; simpl; lia
      | done | intros i ?; apply Hon; lia | done ].
Qed.

Lemma fetch_concatenates_pages_witness :
  ∃ k f,
    fetchAllData (λ _ p, Response true 200 (Some (two_pages p))) 1500 = Some f
    ∧ 1 ≤ k ≤ MAX_PAGES
    ∧ records f = pages_upto two_pages k
    ∧ length (filter is_fetch (observed f)) = k.
Proof.
  destruct (fetch_concatenates_pages
              (λ _ p, Response true 200 (Some (two_pages p))) two_pages 1500)
    as (k & f & Hf & Hk & Hrec & Hreq & _).
  - intros n p. by exists 200.
  - unfold MAX_PAGES. lia.
  - by exists k, f.
Defined.

Example fetch_two_pages :
  records <$> fetchAllData (λ _ p, Response true 200 (Some (two_pages p))) 1500
  = Some [obj [("id", VNum 1)]; obj [("id", VNum 2)]].
Proof. by vm_compute. Qed.

(** ** The size of what the fetch returns *)

Lemma fetch_loop_bounded api size :
  no_retry_succeeds api → page_size_at_most api size →
  ∀ fuel s why s',
    fetch_loop api fuel s = Some (why, s') →
    (hasMore s = true → currentPage s ≤ MAX_PAGES) →
    1 ≤ currentPage s ≤ S MAX_PAGES →
    length (allData s) ≤ size * (currentPage s - 1) →
    length (allData s') ≤ size * MAX_PAGES.
Proof.
  intros Hapi Hsize.
  induction fuel as [|fuel IH]; intros s why s'; simpl.
  - destruct (hasMore s); simpl; [done|]. intros [= <- <-] _ Hp Hlen. nia.
  - destruct (hasMore s) eqn:Hmore; simpl;
      [|intros [= <- <-] _ Hp Hlen; nia].
    intros Hl Hp Hp' Hlen. specialize (Hp eq_refl).
    destruct (decide (fails (api (requests s) (currentPage s)))) as [Hf|Hok].
    + rewrite (iteration_failed _ _ Hf) in Hl.
      destruct (retry_gives_up api s (Hapi _ _ Hf)) as (log & Hr & _).
      rewrite Hr in Hl. injection Hl as <- <-. simpl. nia.
    + destruct (api (requests s) (currentPage s)) as [|[] status [b|]] eqn:Hr;
        try (by destruct Hok).
      pose proof (Hsize _ _ _ _ Hr) as Hb.
      destruct (iteration_ok api s status b Hr)
        as (_ & s1 & warn & Hi & Hd & Hp1 & _).
      assert (length (allData s1) ≤ size * currentPage s) as Hlen1.
      { rewrite Hd, length_app. nia. }
      destruct Hi as [(Hi & Hle & _)|(Hi & Hgt & _)]; rewrite Hi in Hl.
      * apply IH in Hl; [done|lia|lia|]. rewrite Hp1. simpl.
        by rewrite Nat.sub_0_r.
      * injection Hl as <- <-. nia.
Qed.

(** X14. When no retry succeeds and no response carries more than [size]
    records, fetchAllData never returns more than [size] times 1500
    records (75 000 for the page size of 50 the code asks for). *)
Theorem fetch_size_bounded api size fuel f :
  no_retry_succeeds api → page_size_at_most api size →
  fetchAllData api fuel = Some f →
  length (records f) ≤ size * MAX_PAGES.
Proof.
  intros Hapi Hsize. unfold fetchAllData.
  destruct (fetch_loop api fuel fetch_init) as [[why s]|] eqn:Hl; [|done].
  intros [= <-]. simpl.
  eapply (fetch_loop_bounded api size Hapi Hsize); [done|..].
  - intros _. change (currentPage fetch_init) with 1. unfold MAX_PAGES. lia.
  - change (currentPage fetch_init) with 1. lia.
  - simpl. lia.
Qed.

Lemma fetch_size_bounded_witness :
  ∃ f, fetchAllData overstating 1500 = Some f
       ∧ length (records f) ≤ 50 * MAX_PAGES.
Proof.
  eexists. split; [exact fetch_overstating|].
  apply (fetch_size_bounded overstating 50 1500 _).
  - intros n page Hf. by simpl in Hf.
  - intros n p status b [= _ <-]. simpl. case_bool_decide; simpl; lia.
  - exact fetch_overstating.
Defined.

(** ** Runs *)

Lemma stringify_empty : stringify ∅ = ∅.
Proof. unfold stringify. apply fmap_empty. Qed.

Lemma main_fetches api fuel now isDryRun subscribers disk0 r :
  main api fuel now isDryRun subscribers disk0 = Some r →
  ∃ f, fetchAllData api fuel = Some f.
Proof.
  unfold main. destruct (fetchAllData api fuel) as [f|]; [|done]. by exists f.
Qed.







(** ** Who is written to *)

Lemma deliveries_recipients (c : changes) (subs : list subscriber) :
  (deliveries c subs).*1 `sublist_of` email <$> subs.
Proof.
  induction subs as [|sub subs IH]; [done|].
  unfold deliveries.
  change (omap ?f (sub :: subs)) with
    (match f sub with Some y => y :: omap f subs | None => omap f subs end).
  cbv beta. case_bool_decide.
  - rewrite fmap_cons. by apply sublist_cons.
  - rewrite !fmap_cons. by apply sublist_skip.
Qed.

(** X18. In a run that is not a dry run, a message goes to exactly the
    active subscribers whose scope selects at least one entry of the
    change set reported; each receives the report filtered by their own
    scope; and the recipients follow the order of the subscriber list.  A
    run that writes no report sends nothing. *)
Theorem outbox_recipients api fuel now subscribers disk0 r :
  main api fuel now false subscribers disk0 = Some r →
  (∀ to fc, (to, fc) ∈ outbox r ↔
     ∃ sub c, sub ∈ subscribers ∧ actif sub = true ∧ report r = Some c
              ∧ to = email sub
              ∧ fc = filterChangesForSubscriber c (perimetres sub)
              ∧ 0 < count fc)
  ∧ (outbox r).*1 `sublist_of` email <$> subscribers.
Proof.
  intros Hr. unfold main in Hr.
  destruct (fetchAllData api fuel) as [f|]; [|done]. simpl in Hr.
  assert (∀ (to : string) (fc : changes), (to, fc) ∈ @nil (string * changes) ↔
            ∃ sub c, sub ∈ subscribers ∧ actif sub = true
                     ∧ @None changes = Some c ∧ to = email sub
                     ∧ fc = filterChangesForSubscriber c (perimetres sub)
                     ∧ 0 < count fc) as Hnone.
  { intros to fc. split; [by intros ?%elem_of_nil|].
    by intros (? & ? & _ & _ & ? & _). }
  repeat case_bool_decide; injection Hr as <-; simpl;
    try (split; [exact Hnone|apply sublist_nil_l]).
  split.
  - intros to fc. unfold deliveries. rewrite list_elem_of_omap. split.
    + intros (sub & [Hact Hin]%list_elem_of_filter & Hsub).
      case_bool_decide; [done|]. injection Hsub as <- <-.
      exists sub. eexists. split_and!; try done.
      * by destruct (actif sub).
      * lia.
    + intros (sub & c & Hin & Hact & [= <-] & -> & -> & Hpos).
      exists sub. split.
      * apply list_elem_of_filter. split; [by rewrite Hact|done].
      * rewrite bool_decide_eq_false_2 by lia. done.
  - etrans; [apply deliveries_recipients|].
    apply fmap_sublist, sublist_filter.
Qed.

Lemma outbox_recipients_witness :
  ∃ r, main overstating 1500 "now" false
         [ {| email := "justice@example.org"; nom := "J";
              perimetres := [VStr "Justice"]; actif := true |};
           {| email := "all@example.org"; nom := "A";
              perimetres := [VStr "ALL"]; actif := true |};
           {| email := "off@example.org"; nom := "O";
              perimetres := [VStr "ALL"]; actif := false |} ]
         (Json sample_previous) = Some r
       ∧ (outbox r).*1 = ["all@example.org"].
Proof.
  eexists. split; [by vm_compute|].
  pose proof (outbox_recipients overstating 1500 "now"
    [ {| email := "justice@example.org"; nom := "J";
         perimetres := [VStr "Justice"]; actif := true |};
      {| email := "all@example.org"; nom := "A";
         perimetres := [VStr "ALL"]; actif := true |};
      {| email := "off@example.org"; nom := "O";
         perimetres := [VStr "ALL"]; actif := false |} ]
    (Json sample_previous) _ ltac:(by vm_compute)) as [_ Hsub].
  by vm_compute.
Defined.

(** ** Rendering *)

Lemma for_each_render_ok html (l : list entry) :
  Forall (λ e, is_Some (modifications e)) l →
  ∃ h, for_each render_modifie html l = inr h.
Proof.
  intros Hl. revert html. induction Hl as [|e l [mods He] _ IH]; intros html.
  - by eexists.
  - simpl. unfold render_modifie at 1. rewrite He. simpl. apply IH.
Qed.

Lemma for_each_render_throws html (l : list entry) :
  ¬ Forall (λ e, is_Some (modifications e)) l →
  ∃ e, for_each render_modifie html l = inl e.
Proof.
  revert html. induction l as [|e l IH]; intros html Hl.
  - destruct Hl. constructor.
  - simpl. unfold render_modifie at 1.
    destruct (modifications e) as [mods|] eqn:He; simpl.
    + apply IH. intros Hl'. apply Hl. constructor; [by eexists|done].
    + by eexists.
Qed.

Lemma renderable_diff now (P : snapshot) (C : list record) :
  renderable (detectChanges now P C).
Proof.
  unfold renderable. apply Forall_forall.
  intros e (item & k & previous & _ & _ & _ & _ & ->)%elem_of_modifies.
  by eexists.
Qed.

Lemma renderable_filter (c : changes) (tokens : list value) :
  renderable c → renderable (filterChangesForSubscriber c tokens).
Proof.
  unfold renderable, filterChangesForSubscriber.
  destruct (includes tokens (VStr "ALL")); [done|]. simpl.
  rewrite !Forall_forall. intros Hc e [_ He]%list_elem_of_filter. by apply Hc.
Qed.

Lemma generateEmailHTML_ok (c : changes) name date :
  renderable c → ∃ h, generateEmailHTML c name date = inr h.
Proof.
  intros Hc. unfold generateEmailHTML.
  destruct (bool_decide (0 < length (modifies c))).
  - edestruct (for_each_render_ok) as [h ->]; [exact Hc|]. by eexists.
  - by eexists.
Qed.

(** X19. generateEmailHTML throws exactly when some entry of modified
    lacks its list of modifications; it never throws on a change set built
    by detectChanges, filtered or not. *)
Theorem email_renders (c : changes) (name date : string) :
  ((∃ h, generateEmailHTML c name date = inr h) ↔ renderable c)
  ∧ (∀ now P C tokens,
       c = filterChangesForSubscriber (detectChanges now P C) tokens
       ∨ c = detectChanges now P C →
       ∃ h, generateEmailHTML c name date = inr h).
Proof.
  split.
  - split; [|apply generateEmailHTML_ok].
    intros [h Hh]. destruct (decide (renderable c)) as [|Hn]; [done|].
    exfalso. unfold generateEmailHTML in Hh.
    rewrite bool_decide_eq_true_2 in Hh.
    + edestruct (for_each_render_throws) as [e He]; [exact Hn|].
      by rewrite He in Hh.
    + unfold renderable in Hn. destruct (modifies c); [|simpl; lia].
      destruct Hn. constructor.
  - intros now P C tokens [-> | ->]; apply generateEmailHTML_ok.
    + apply renderable_filter, renderable_diff.
    + apply renderable_diff.
Qed.

Lemma email_renders_witness :
  ∃ h, generateEmailHTML
         (filterChangesForSubscriber
            (detectChanges "now" sample_unattached sample_attached)
            [VStr "Justice"])
         "Jeanne" "lundi 1 janvier 2024" = inr h.
Proof.
  eapply (email_renders _ "Jeanne" "lundi 1 janvier 2024"). by left.
Defined.

(** ** The highlighted change of authority *)

Lemma find_ministry_change_spec previous item :
  match find_ministry_change (field_modifications previous item) with
  | Some m =>
      normalize (get previous "line_ministry")
      ≠ normalize (get item "line_ministry")
      ∧ ancienne_valeur m = get previous "line_ministry"
      ∧ nouvelle_valeur m = get item "line_ministry"
  | None =>
      normalize (get previous "line_ministry")
      = normalize (get item "line_ministry")
  end.
Proof.
  unfold find_ministry_change.
  destruct (List.find _ _) as [m|] eqn:Hfind.
  - apply find_some in Hfind as [Hin Hm].
    apply bool_decide_eq_true in Hm.
    apply list_elem_of_In, elem_of_field_modifications in Hin
      as (f & _ & Hne & ->). simpl in *. by subst f.
  - destruct (decide (normalize (get previous "line_ministry")
                      = normalize (get item "line_ministry"))) as [|Hne];
      [done|]. exfalso.
    pose proof (find_none _ _ Hfind
      {| champ := "line_ministry"; label := label_of "line_ministry";
         ancienne_valeur := get previous "line_ministry";
         nouvelle_valeur := get item "line_ministry" |}) as Hnone.
    assert (bool_decide ("line_ministry" = "line_ministry") = false) as Habs;
      [|done]. apply Hnone.
    apply list_elem_of_In, elem_of_field_modifications.
    exists "line_ministry". split_and!; [|done|done].
    unfold MONITORED_FIELDS. repeat constructor.
Qed.

Lemma textual_cases (v : value) :
  textual v →
  (truthy v = false ∧ normalize v = "")
  ∨ (∃ s, v = VStr s ∧ s ≠ "" ∧ truthy v = true ∧ normalize v = s).
Proof.
  destruct v as [| | | |s]; simpl; try done; auto.
  intros _. destruct (String.eqb s "") eqn:Hs; simpl.
  - apply String.eqb_eq in Hs as ->. auto.
  - apply String.eqb_neq in Hs. right. by exists s.
Qed.

(** X20. For a modified entry of the diff, the highlighted banner is shown
    exactly when the supervising authority differs after normalization,
    and it compares the entry's previous and current authority.  When both
    are strings or absent, the banner is the attachment one exactly when
    there was no authority before, the detachment one exactly when there
    is none now, and otherwise the transfer one, which then names two
    different non-empty authorities. *)
Theorem ministry_banner_of_diff now (P : snapshot) (C : list record) (e : entry)
    (mods : list modification) :
  e ∈ modifies (detectChanges now P C) →
  modifications e = Some mods →
  match find_ministry_change mods with
  | None => normalize (ancien e) = normalize (ministere e)
  | Some m =>
      normalize (ancien e) ≠ normalize (ministere e)
      ∧ ancienne_valeur m = ancien e
      ∧ nouvelle_valeur m = ministere e
      ∧ (textual (ancien e) → textual (ministere e) →
           (truthy (ancien e) = false ∧ truthy (ministere e) = true
            ∧ ministry_banner m = rattachement_html (ToString (ministere e)))
           ∨ (truthy (ancien e) = true ∧ truthy (ministere e) = false
              ∧ ministry_banner m = retrait_html (ToString (ancien e)))
           ∨ (truthy (ancien e) = true ∧ truthy (ministere e) = true
              ∧ ancien e ≠ ministere e
              ∧ ministry_banner m
                = changement_html (ToString (ancien e))
                                  (ToString (ministere e))))
  end.
Proof.
  intros (item & k & previous & _ & _ & _ & _ & ->)%elem_of_modifies.
  simpl. intros [= <-]. unfold ancien. simpl.
  pose proof (find_ministry_change_spec previous item) as Hfind.
  destruct (find_ministry_change (field_modifications previous item)) as [m|];
    [|done].
  destruct Hfind as (Hne & Hold & Hnew). split_and!; try done.
  intros Ho Hn. unfold ministry_banner, or_text. rewrite Hold, Hnew.
  destruct (textual_cases _ Ho) as [[Hto Hno]|(so & Hso & Hso' & Hto & Hno)],
           (textual_cases _ Hn) as [[Htn Hnn]|(sn & Hsn & Hsn' & Htn & Hnn)];
    rewrite Hto, Htn; simpl.
  - congruence.
  - by left.
  - right. by left.
  - right. right. split_and!; try done. congruence.
Qed.

Lemma ministry_banner_of_diff_witness :
  match find_ministry_change
          [ {| champ := "line_ministry"; label := "Ministère de tutelle";
               ancienne_valeur := VStr ""; nouvelle_valeur := VStr "Justice" |} ]
  with
  | Some m => ministry_banner m = rattachement_html "Justice"
  | None => False
  end.
Proof.
  pose proof (ministry_banner_of_diff "now" sample_unattached sample_attached
                sample_attachment _ ltac:(vm_compute; constructor) eq_refl) as H.
  destruct (find_ministry_change _) as [m|]; [|by vm_compute in H].
  destruct H as (_ & _ & _ & H).
  destruct (H I I) as [(_ & _ & Hb)|[(Hab & _)|(Hab & _)] ].
  - exact Hb.
  - vm_compute in Hab. discriminate.
  - vm_compute in Hab. discriminate.
Defined.

(** ** Sending *)

Lemma posted_app (l1 l2 : list mail_event) :
  posted (l1 ++ l2) = posted l1 ++ posted l2.
Proof. apply omap_app. Qed.

Lemma sendEmailResend_spec key mailer n recipient toName subject h config :
  match bearer key with
  | None =>
      sendEmailResend key mailer n recipient toName subject h config
      = (false, [MNoKey])
  | Some k =>
      let req :=
        {| authorization := "Bearer " +:+ k;
           json_body :=
             {| from := js_or (sender_email config)
                          (VStr "SPE Monitor <onboarding@resend.dev>");
                to := [recipient]; subject := subject; html := h |} |} in
      ∃ ev,
        sendEmailResend key mailer n recipient toName subject h config
        = (bool_decide (accepts (mailer n req)), [MPost req; ev])
        ∧ (ev = MSent recipient ∨ ev = MError recipient)
  end.
Proof.
  unfold bearer, sendEmailResend.
  destruct key as [[|a k]|]; [done| |done]. simpl.
  destruct (mailer n _) as [|[] [r|] ]; simpl; eexists; split; auto.
Qed.

Lemma notify_step_spec key mailer (c : changes) p date st sub :
  renderable c →
  ∃ st',
    notify_step key mailer c p date st sub = inr st'
    ∧ posted (journal st')
      = posted (journal st)
        ++ match bearer key with
           | Some k => request_for k p date c <$> addressed c [sub]
           | None => []
           end
    ∧ emailsSent st'
      = emailsSent st
        + match bearer key with
          | Some k =>
              accepted mailer (length (posted (journal st)))
                (request_for k p date c <$> addressed c [sub])
          | None => 0
          end.
Proof.
  intros Hc. unfold notify_step, addressed.
  rewrite filter_cons, filter_nil.
  case_bool_decide as Hcount.
  - rewrite decide_False by (intros Hn; by apply Hn).
    eexists. split; [done|]. simpl.
    rewrite posted_app. simpl. rewrite app_nil_r.
    destruct (bearer key); simpl; split; by rewrite ?app_nil_r, ?Nat.add_0_r.
  - rewrite decide_True by done.
    destruct (generateEmailHTML_ok
                (filterChangesForSubscriber c (perimetres sub)) (nom sub) date
                (renderable_filter c _ Hc)) as [h Hh].
    rewrite Hh. simpl.
    pose proof (sendEmailResend_spec key mailer (length (posted (journal st)))
                  (email sub) (nom sub)
                  (or_text (subject_prefix p) "[SPE]" +:+ " "
                   +:+ pretty (count (filterChangesForSubscriber c (perimetres sub)))
                   +:+ " changement(s) détecté(s)") h p) as Hsend.
    destruct (bearer key) as [k|].
    + destruct Hsend as (ev & -> & Hev). eexists. split; [done|]. simpl.
      assert (request_for k p date c sub
              = {| authorization := "Bearer " +:+ k;
                   json_body :=
                     {| from := js_or (sender_email p)
                                  (VStr "SPE Monitor <onboarding@resend.dev>");
                        to := [email sub];
                        subject := or_text (subject_prefix p) "[SPE]" +:+ " "
                          +:+ pretty (count (filterChangesForSubscriber c
                                               (perimetres sub)))
                          +:+ " changement(s) détecté(s)";
                        html := h |} |}) as Hreq.
      { unfold request_for. by rewrite Hh. }
      rewrite Hreq. split.
      * rewrite !posted_app. f_equal. by destruct Hev as [-> | ->].
      * case_bool_decide as Hacc.
        -- rewrite decide_True by done. lia.
        -- rewrite decide_False by done. lia.
    + rewrite Hsend. eexists. split; [done|]. simpl.
      rewrite posted_app. simpl. by rewrite app_nil_r, Nat.add_0_r.
Qed.

Lemma accepted_app mailer n (l1 l2 : list request) :
  accepted mailer n (l1 ++ l2)
  = accepted mailer n l1 + accepted mailer (n + length l1) l2.
Proof.
  revert n. induction l1 as [|r l1 IH]; intros n; simpl.
  - by rewrite Nat.add_0_r.
  - rewrite IH. replace (S n + length l1) with (n + S (length l1)) by lia. lia.
Qed.

Lemma accepted_le mailer n (l : list request) : accepted mailer n l ≤ length l.
Proof.
  revert n. induction l as [|r l IH]; intros n; simpl; [done|].
  specialize (IH (S n)). case_decide; lia.
Qed.

Lemma notify_spec key mailer (c : changes) p date (subs : list subscriber) :
  renderable c →
  ∀ st, ∃ st',
    for_each (notify_step key mailer c p date) st subs = inr st'
    ∧ posted (journal st')
      = posted (journal st)
        ++ match bearer key with
           | Some k => request_for k p date c <$> addressed c subs
           | None => []
           end
    ∧ emailsSent st'
      = emailsSent st
        + match bearer key with
          | Some k =>
              accepted mailer (length (posted (journal st)))
                (request_for k p date c <$> addressed c subs)
          | None => 0
          end.
Proof.
  intros Hc. induction subs as [|sub subs IH]; intros st.
  - exists st. simpl. destruct (bearer key); simpl;
      by rewrite ?app_nil_r, ?Nat.add_0_r.
  - destruct (notify_step_spec key mailer c p date st sub Hc)
      as (st1 & Hst1 & Hp1 & He1).
    destruct (IH st1) as (st' & Hst' & Hp' & He').
    exists st'. simpl. rewrite Hst1. simpl. split; [done|].
    assert (addressed c (sub :: subs) = addressed c [sub] ++ addressed c subs)
      as Hadd.
    { unfold addressed. by rewrite <- filter_app. }
    destruct (bearer key) as [k|].
    + rewrite Hadd, fmap_app, accepted_app. split.
      * by rewrite Hp', Hp1, app_assoc.
      * rewrite He', He1, Hp1, length_app. lia.
    + rewrite app_nil_r in *. split; [congruence|lia].
Qed.


